(** * concurrency-map-slice: concurrent map and slice, verified

    A shallow embedding of the Go sources:
    - [slice.go] (two versions of the [ConcurrentSlice] type: one whose
      [Get] tests the index with [isset], one whose [Get] indexes the
      slice directly);
    - the benchmark file with the three [Map] implementations [GoMap],
      [GoMap1Chan] and [SyncMap].

    Go's [int] is modelled by [Z] (no operation of the code can wrap: the
    only arithmetic is the comparison in [isset] and the loop counter of
    [range]); a slice is a [list]; a [map[string]interface{}] is a
    [gmap string iface]; an unbuffered channel is identified by a number
    and its traffic is made explicit. *)

From Stdlib Require Import ZArith String.
From stdpp Require Import base tactics option list gmap strings pretty fin_maps relations.

Local Open Scope Z_scope.

(** ** Go values *)

(** Identity of a channel created by [make(chan T)]. *)
Definition chan : Type := nat.

(** The dynamic values an [interface{}] holds in this program: [nil],
    values of a few basic types, and the two request structs, which the
    single-channel worker tells apart by a type switch. *)
Inductive iface : Type :=
| nil_iface
| string_iface (s : string)
| int_iface (n : Z)
| bool_iface (b : bool)
| mapGet_iface (key : string) (out : chan)
| mapSet_iface (key : string) (value : iface).

(** How a call ends: it returns, it panics, or it waits for ever on a
    lock or a channel nobody serves. *)
Inductive outcome (A : Type) : Type :=
| Returned (a : A)
| Panicked (msg : string)
| Blocked.
Arguments Returned {A} a.
Arguments Panicked {A} msg.
Arguments Blocked {A}.

Definition panics {A} (r : outcome A) : bool :=
  match r with Panicked _ => true | _ => false end.

(** ** sync.RWMutex

    The lock as a single call finds it: whether a writer holds it and
    how many readers do. A writer that waits inside [Lock()] also keeps
    new readers out; that matters only when several goroutines use the
    lock at once and is part of the step relation [SyncMap_step]
    (state [Lock_pending]), not of this record. *)

Record RWMutex : Type := { writer : bool; readers : nat }.

Definition unlocked : RWMutex := {| writer := false; readers := 0 |}.

(** [None]: the caller has to wait. *)
Definition RLock (mu : RWMutex) : option RWMutex :=
  if writer mu then None
  else Some {| writer := false; readers := S (readers mu) |}.

Definition RUnlock (mu : RWMutex) : outcome RWMutex :=
  match readers mu with
  | O => Panicked "sync: RUnlock of unlocked RWMutex"
  | S n => Returned {| writer := writer mu; readers := n |}
  end.

Definition Lock (mu : RWMutex) : option RWMutex :=
  if writer mu || negb (Nat.eqb (readers mu) 0) then None
  else Some {| writer := true; readers := 0 |}.

Definition Unlock (mu : RWMutex) : outcome RWMutex :=
  if writer mu then Returned {| writer := false; readers := readers mu |}
  else Panicked "sync: Unlock of unlocked RWMutex".

(** [defer mu.Unlock()] / [defer mu.RUnlock()]: the unlock runs when the
    function leaves, by return or by panic, and the function's outcome
    [r] stands unless the unlock itself panics. *)
Definition deferred {A} (unlock : RWMutex → outcome RWMutex)
    (mu : RWMutex) (r : outcome A) : outcome A * RWMutex :=
  match unlock mu with
  | Returned mu' => (r, mu')
  | Panicked msg => (Panicked msg, mu)
  | Blocked => (Blocked, mu)
  end.

(** ** Slices *)

(** [len(arr)] *)
Definition len (arr : list iface) : Z := Z.of_nat (length arr).

(** The index expression [arr[index]]: a run-time panic outside
    [0 <= index < len(arr)]. *)
Definition index_expr (arr : list iface) (index : Z) : outcome iface :=
  if index <? 0 then Panicked "runtime error: index out of range"
  else match arr !! Z.to_nat index with
       | Some v => Returned v
       | None => Panicked "runtime error: index out of range"
       end.

Record ConcurrentSlice : Type := { mu : RWMutex; items : list iface }.

Record ConcurrentSliceItem : Type := { Index : Z; Value : iface }.

(** What the goroutine of [Iter] does to its channel. *)
Inductive chan_op : Type :=
| send (it : ConcurrentSliceItem)
| close.

(** [for index, value := range items { c <- ConcurrentSliceItem{index, value} }],
    the counter starting at [index]. *)
Fixpoint range_send (index : Z) (arr : list iface) : list chan_op :=
  match arr with
  | [] => []
  | value :: rest =>
      send {| Index := index; Value := value |} :: range_send (index + 1) rest
  end.

(** What [for it := range c] receives from a channel on which [ops] are
    performed, and whether the loop ends (the channel is closed). *)
Fixpoint drain (ops : list chan_op) : list ConcurrentSliceItem * bool :=
  match ops with
  | [] => ([], false)
  | close :: _ => ([], true)
  | send it :: rest => let '(its, closed) := drain rest in (it :: its, closed)
  end.

Definition NewConcurrentSlice : ConcurrentSlice :=
  {| mu := unlocked; items := [] |}.

(** [Append] is the same in both versions of slice.go. *)
Definition Append (cs : ConcurrentSlice) (item : iface)
    : outcome unit * ConcurrentSlice :=
  match Lock (mu cs) with
  | None => (Blocked, cs)
  | Some mu1 =>
      let items1 := items cs ++ [item] in
      let '(r, mu2) := deferred Unlock mu1 (Returned tt) in
      (r, {| mu := mu2; items := items1 |})
  end.

(** The version of slice.go whose [Get] tests the index first. *)
Module Checked.

Definition isset (arr : list iface) (index : Z) : bool := len arr >? index.

Definition Get (cs : ConcurrentSlice) (index : Z)
    : outcome iface * ConcurrentSlice :=
  match RLock (mu cs) with
  | None => (Blocked, cs)
  | Some mu1 =>
      let r := if isset (items cs) index then index_expr (items cs) index
               else Returned nil_iface in
      let '(r, mu2) := deferred RUnlock mu1 r in
      (r, {| mu := mu2; items := items cs |})
  end.

(** The function [f] that [Iter] starts as a goroutine: the operations
    it performs on the channel [c] that [Iter] returns. *)
Definition Iter_f (cs : ConcurrentSlice)
    : outcome (list chan_op) * ConcurrentSlice :=
  match RLock (mu cs) with
  | None => (Blocked, cs)
  | Some mu1 =>
      let ops := range_send 0 (items cs) ++ [close] in
      let '(r, mu2) := deferred RUnlock mu1 (Returned ops) in
      (r, {| mu := mu2; items := items cs |})
  end.

End Checked.

(** The version of slice.go whose [Get] indexes without a test
    ("NOT SAVE make you sure the index is valid"). *)
Module Unchecked.

Definition Get (cs : ConcurrentSlice) (index : Z)
    : outcome iface * ConcurrentSlice :=
  match Lock (mu cs) with
  | None => (Blocked, cs)
  | Some mu1 =>
      let '(r, mu2) := deferred Unlock mu1 (index_expr (items cs) index) in
      (r, {| mu := mu2; items := items cs |})
  end.

Definition Iter_f (cs : ConcurrentSlice)
    : outcome (list chan_op) * ConcurrentSlice :=
  match Lock (mu cs) with
  | None => (Blocked, cs)
  | Some mu1 =>
      let ops := range_send 0 (items cs) ++ [close] in
      let '(r, mu2) := deferred Unlock mu1 (Returned ops) in
      (r, {| mu := mu2; items := items cs |})
  end.

End Unchecked.

(** ** Maps *)

(** [value, ok := m[key]]: the zero value [nil] and [false] for a key
    that is not in the map. *)
Definition map_index (m : gmap string iface) (key : string) : iface * bool :=
  match m !! key with
  | Some value => (value, true)
  | None => (nil_iface, false)
  end.

Record mapResult : Type := { mapResult_value : iface; mapResult_ok : bool }.
Record mapGet : Type := { mapGet_key : string; mapGet_out : chan }.
Record mapSet : Type := { mapSet_key : string; mapSet_value : iface }.

(** Boxing a request struct into an [interface{}], as the sends on
    [chan interface{}] do. *)
Definition box_mapGet (r : mapGet) : iface :=
  mapGet_iface (mapGet_key r) (mapGet_out r).
Definition box_mapSet (r : mapSet) : iface :=
  mapSet_iface (mapSet_key r) (mapSet_value r).

(** [r, ok := <-ch]: a value handed over by a sender, or the zero value
    with [ok = false] once the channel is closed. *)
Inductive recv (A : Type) : Type :=
| received (a : A)
| chan_closed.
Arguments received {A} a.
Arguments chan_closed {A}.

(** One turn of a worker's loop: it goes round again with its map,
    having sent at most one reply; or it returns; or it panics. *)
Inductive loop_step : Type :=
| next_iter (m : gmap string iface) (reply : option (chan * mapResult))
| loop_return
| loop_panic (msg : string).

(** How far a worker got on the events it was given. *)
Inductive run_end : Type :=
| at_receive          (* waiting for the next request *)
| done_sent           (* returned; the deferred [g.done <- true] ran *)
| run_panicked (msg : string).

Record run_result : Type :=
  { run_m : gmap string iface;
    run_replies : list (chan * mapResult);
    run_status : run_end }.

Definition add_reply (reply : option (chan * mapResult)) (r : run_result)
    : run_result :=
  {| run_m := run_m r;
     run_replies := option_list reply ++ run_replies r;
     run_status := run_status r |}.

Inductive worker_status : Type := running | exited.

(** The interface [Map]. A call returns its outcome and the store after
    it. *)
Class Map (T : Type) : Type :=
  { Get : T → string → outcome (iface * bool) * T;
    Set_ : T → string → iface → outcome unit * T }.

(** *** The two-channel worker *)
Module GoMap.

Record t : Type :=
  { m : gmap string iface;
    made : chan;               (* channels made by [Get] so far *)
    closed : bool;             (* [get] and [set] are closed *)
    worker : worker_status }.

(** The case of the [select] that fires. *)
Inductive select_case : Type :=
| case_get (r : recv mapGet)
| case_set (r : recv mapSet).

(** The body of the [for] loop of [run]. *)
Definition run_body (m : gmap string iface) (c : select_case) : loop_step :=
  match c with
  | case_get chan_closed => loop_return
  | case_get (received r) =>
      let '(value, ok) := map_index m (mapGet_key r) in
      next_iter m (Some (mapGet_out r,
                         {| mapResult_value := value; mapResult_ok := ok |}))
  | case_set chan_closed => loop_return
  | case_set (received r) =>
      next_iter (<[mapSet_key r := mapSet_value r]> m) None
  end.

(** [run] on the cases its [select] takes, in order. *)
Fixpoint run (m : gmap string iface) (cases : list select_case) : run_result :=
  match cases with
  | [] => {| run_m := m; run_replies := []; run_status := at_receive |}
  | c :: rest =>
      match run_body m c with
      | next_iter m1 reply => add_reply reply (run m1 rest)
      | loop_return =>
          {| run_m := m; run_replies := []; run_status := done_sent |}
      | loop_panic msg =>
          {| run_m := m; run_replies := []; run_status := run_panicked msg |}
      end
  end.

Definition NewGoMap : t :=
  {| m := ∅; made := O; closed := false; worker := running |}.

Definition Get (g : t) (key : string) : outcome (iface * bool) * t :=
  let c := made g in                        (* c := make(chan mapResult) *)
  let g := {| m := m g; made := S c; closed := closed g; worker := worker g |} in
  if closed g then (Panicked "send on closed channel", g)
  else match worker g with
  | exited => (Blocked, g)
  | running =>
      (* g.get <- mapGet{key, c} *)
      match run_body (m g) (case_get (received {| mapGet_key := key; mapGet_out := c |})) with
      | next_iter m1 (Some (c1, r)) =>
          let g1 := {| m := m1; made := made g; closed := false; worker := running |} in
          (* r := <-c *)
          if Nat.eqb c1 c then (Returned (mapResult_value r, mapResult_ok r), g1)
          else (Blocked, g1)
      | next_iter m1 None =>
          (Blocked, {| m := m1; made := made g; closed := false; worker := running |})
      | loop_return =>
          (Blocked, {| m := m g; made := made g; closed := false; worker := exited |})
      | loop_panic msg => (Panicked msg, g)
      end
  end.

Definition Set_ (g : t) (key : string) (value : iface) : outcome unit * t :=
  if closed g then (Panicked "send on closed channel", g)
  else match worker g with
  | exited => (Blocked, g)
  | running =>
      (* g.set <- mapSet{key, value} *)
      match run_body (m g) (case_set (received {| mapSet_key := key; mapSet_value := value |})) with
      | next_iter m1 None =>
          (Returned tt, {| m := m1; made := made g; closed := false; worker := running |})
      | next_iter m1 (Some _) =>
          (* the worker is stuck on a reply nobody receives *)
          (Returned tt, {| m := m1; made := made g; closed := false; worker := exited |})
      | loop_return =>
          (Returned tt, {| m := m g; made := made g; closed := false; worker := exited |})
      | loop_panic msg => (Panicked msg, g)
      end
  end.

Definition Stop (g : t) : outcome unit * t :=
  if closed g then (Panicked "close of closed channel", g)
  else
    let g1 := {| m := m g; made := made g; closed := true; worker := worker g |} in
    match worker g with
    | exited => (Blocked, g1)
    | running =>
        match run_body (m g) (case_get chan_closed) with
        | loop_return =>          (* <-g.done *)
            (Returned tt, {| m := m g; made := made g; closed := true; worker := exited |})
        | next_iter _ _ => (Blocked, g1)
        | loop_panic msg => (Panicked msg, g1)
        end
    end.

#[global] Instance GoMap_Map : Map t := Build_Map t Get Set_.

End GoMap.

(** *** The single-channel worker *)
Module GoMap1Chan.

Record t : Type :=
  { m : gmap string iface;
    made : chan;
    closed : bool;             (* [in] is closed *)
    worker : worker_status }.

(** The body of [for i := range g.in]: the type switch on [i]. *)
Definition switch (m : gmap string iface) (i : iface) : loop_step :=
  match i with
  | mapGet_iface key out =>
      let '(value, ok) := map_index m key in
      next_iter m (Some (out, {| mapResult_value := value; mapResult_ok := ok |}))
  | mapSet_iface key value => next_iter (<[key := value]> m) None
  | _ => loop_panic "Unknown type on GoMap1Chan in"
  end.

(** One turn of the [range] loop: it ends when the channel is closed. *)
Definition run_body (m : gmap string iface) (i : recv iface) : loop_step :=
  match i with
  | chan_closed => loop_return
  | received i => switch m i
  end.

Fixpoint run (m : gmap string iface) (inputs : list (recv iface)) : run_result :=
  match inputs with
  | [] => {| run_m := m; run_replies := []; run_status := at_receive |}
  | i :: rest =>
      match run_body m i with
      | next_iter m1 reply => add_reply reply (run m1 rest)
      | loop_return =>
          {| run_m := m; run_replies := []; run_status := done_sent |}
      | loop_panic msg =>
          {| run_m := m; run_replies := []; run_status := run_panicked msg |}
      end
  end.

Definition NewGoMap1Chan : t :=
  {| m := ∅; made := O; closed := false; worker := running |}.

Definition Get (g : t) (key : string) : outcome (iface * bool) * t :=
  let c := made g in                        (* c := make(chan mapResult) *)
  let g := {| m := m g; made := S c; closed := closed g; worker := worker g |} in
  if closed g then (Panicked "send on closed channel", g)
  else match worker g with
  | exited => (Blocked, g)
  | running =>
      (* g.in <- mapGet{key, c} *)
      match run_body (m g) (received (box_mapGet {| mapGet_key := key; mapGet_out := c |})) with
      | next_iter m1 (Some (c1, r)) =>
          let g1 := {| m := m1; made := made g; closed := false; worker := running |} in
          (* r := <-c *)
          if Nat.eqb c1 c then (Returned (mapResult_value r, mapResult_ok r), g1)
          else (Blocked, g1)
      | next_iter m1 None =>
          (Blocked, {| m := m1; made := made g; closed := false; worker := running |})
      | loop_return =>
          (Blocked, {| m := m g; made := made g; closed := false; worker := exited |})
      | loop_panic msg => (Panicked msg, g)
      end
  end.

Definition Set_ (g : t) (key : string) (value : iface) : outcome unit * t :=
  if closed g then (Panicked "send on closed channel", g)
  else match worker g with
  | exited => (Blocked, g)
  | running =>
      (* g.in <- mapSet{key, value} *)
      match run_body (m g) (received (box_mapSet {| mapSet_key := key; mapSet_value := value |})) with
      | next_iter m1 None =>
          (Returned tt, {| m := m1; made := made g; closed := false; worker := running |})
      | next_iter m1 (Some _) =>
          (Returned tt, {| m := m1; made := made g; closed := false; worker := exited |})
      | loop_return =>
          (Returned tt, {| m := m g; made := made g; closed := false; worker := exited |})
      | loop_panic msg => (Panicked msg, g)
      end
  end.

Definition Stop (g : t) : outcome unit * t :=
  if closed g then (Panicked "close of closed channel", g)
  else
    let g1 := {| m := m g; made := made g; closed := true; worker := worker g |} in
    match worker g with
    | exited => (Blocked, g1)
    | running =>
        match run_body (m g) chan_closed with
        | loop_return =>          (* <-g.done *)
            (Returned tt, {| m := m g; made := made g; closed := true; worker := exited |})
        | next_iter _ _ => (Blocked, g1)
        | loop_panic msg => (Panicked msg, g1)
        end
    end.

#[global] Instance GoMap1Chan_Map : Map t := Build_Map t Get Set_.

End GoMap1Chan.

(** *** The map behind a lock *)
Module SyncMap.

Record t : Type := { lock : RWMutex; m : gmap string iface }.

Definition NewSyncMap : t := {| lock := unlocked; m := ∅ |}.

Definition Get (s : t) (key : string) : outcome (iface * bool) * t :=
  match RLock (lock s) with
  | None => (Blocked, s)
  | Some l1 =>
      let '(value, ok) := map_index (m s) key in
      let '(r, l2) := deferred RUnlock l1 (Returned (value, ok)) in
      (r, {| lock := l2; m := m s |})
  end.

Definition Set_ (s : t) (key : string) (value : iface) : outcome unit * t :=
  match Lock (lock s) with
  | None => (Blocked, s)
  | Some l1 =>
      let m1 := <[key := value]> (m s) in
      let '(r, l2) := deferred Unlock l1 (Returned tt) in
      (r, {| lock := l2; m := m1 |})
  end.

#[global] Instance SyncMap_Map : Map t := Build_Map t Get Set_.

End SyncMap.

(** ** Callers *)

(** The calls a goroutine makes on a [Map], as [TheTest] does. *)
Inductive op : Type :=
| op_get (key : string)
| op_set (key : string) (value : iface).

Definition is_get (o : op) : bool :=
  match o with op_get _ => true | op_set _ _ => false end.

(** One goroutine calling the store [g] in program order: the outcome of
    every [Get], and the store at the end. *)
Fixpoint apply_ops {T} `{Map T} (g : T) (ops : list op)
    : list (outcome (iface * bool)) * T :=
  match ops with
  | [] => ([], g)
  | op_get key :: rest =>
      let '(r, g1) := Get g key in
      let '(rs, g2) := apply_ops g1 rest in
      (r :: rs, g2)
  | op_set key value :: rest =>
      let '(_, g1) := Set_ g key value in
      apply_ops g1 rest
  end.

(** One goroutine making the calls [ops] in program order, as the
    statements of a Go function follow each other: a call that panics
    or waits for ever ends the goroutine there, with that outcome;
    when every call returns, the goroutine has the result of every
    [Get], in order. *)
Fixpoint calls {T} `{Map T} (g : T) (ops : list op)
    : outcome (list (iface * bool)) * T :=
  match ops with
  | [] => (Returned [], g)
  | op_get key :: rest =>
      match Get g key with
      | (Returned r, g1) =>
          match calls g1 rest with
          | (Returned rs, g2) => (Returned (r :: rs), g2)
          | (Panicked msg, g2) => (Panicked msg, g2)
          | (Blocked, g2) => (Blocked, g2)
          end
      | (Panicked msg, g1) => (Panicked msg, g1)
      | (Blocked, g1) => (Blocked, g1)
      end
  | op_set key value :: rest =>
      match Set_ g key value with
      | (Returned _, g1) => calls g1 rest
      | (Panicked msg, g1) => (Panicked msg, g1)
      | (Blocked, g1) => (Blocked, g1)
      end
  end.



(** The values that [Get] and [Set] of [GoMap1Chan] put on [in]. *)
Definition is_request (i : iface) : bool :=
  match i with
  | mapGet_iface _ _ => true
  | mapSet_iface _ _ => true
  | _ => false
  end.

Definition is_request_recv (i : recv iface) : bool :=
  match i with received i => is_request i | chan_closed => true end.

(** ** Several callers and one worker

    The goroutines that call [Get] and [Set] and the worker goroutine
    meet on unbuffered channels: a send and the matching receive are one
    step of the system. What the worker does between two channel
    operations (the lookup, the store into its map) touches only data
    that no other goroutine reaches, and is part of the step that
    receives the request. Which caller is served next is not
    determined: any caller that is ready can take the step. *)

Inductive caller_pc : Type :=
| ready                  (* between two calls *)
| awaiting (c : chan).   (* in [Get], at [r := <-c] *)

Record caller : Type :=
  { todo : list op;                       (* the calls still to make *)
    pc : caller_pc;
    got : list (string * (iface * bool))  (* key and result of each [Get] made *) }.

Inductive worker_pc : Type :=
| receiving (m : gmap string iface)
| replying (m : gmap string iface) (c : chan) (r : mapResult)
| finished
| crashed (msg : string).

Record system : Type :=
  { w : worker_pc; callers : list caller; chans : chan }.

Definition after_body (s : loop_step) : worker_pc :=
  match s with
  | next_iter m None => receiving m
  | next_iter m (Some (c, r)) => replying m c r
  | loop_return => finished
  | loop_panic msg => crashed msg
  end.

Definition start (ops : list op) : caller :=
  {| todo := ops; pc := ready; got := [] |}.

Definition all_done (sys : system) : Prop :=
  ∀ cl, cl ∈ callers sys → todo cl = [] ∧ pc cl = ready.

Section Actor.

(** What travels to the worker, the body of its loop, and how [Get]
    and [Set] make their requests. *)
Variable Msg : Type.
Variable body : gmap string iface → Msg → loop_step.
Variable get_msg : mapGet → Msg.
Variable set_msg : mapSet → Msg.

Inductive step : system → system → Prop :=
| step_Set sys m i cl key value rest :
    w sys = receiving m →
    callers sys !! i = Some cl →
    pc cl = ready →
    todo cl = op_set key value :: rest →
    step sys
      {| w := after_body
                (body m (set_msg {| mapSet_key := key; mapSet_value := value |}));
         callers := <[i := {| todo := rest; pc := ready; got := got cl |}]> (callers sys);
         chans := chans sys |}
| step_Get_send sys m i cl key rest :
    w sys = receiving m →
    callers sys !! i = Some cl →
    pc cl = ready →
    todo cl = op_get key :: rest →
    step sys
      {| w := after_body
                (body m (get_msg {| mapGet_key := key; mapGet_out := chans sys |}));
         callers := <[i := {| todo := todo cl; pc := awaiting (chans sys);
                              got := got cl |}]> (callers sys);
         chans := S (chans sys) |}
| step_Get_reply sys m c r i cl key rest :
    w sys = replying m c r →
    callers sys !! i = Some cl →
    pc cl = awaiting c →
    todo cl = op_get key :: rest →
    step sys
      {| w := receiving m;
         callers := <[i := {| todo := rest; pc := ready;
                              got := got cl ++ [(key, (mapResult_value r, mapResult_ok r))] |}]>
                      (callers sys);
         chans := chans sys |}.

End Actor.

Definition GoMap_step : system → system → Prop :=
  step GoMap.select_case GoMap.run_body
       (λ r, GoMap.case_get (received r)) (λ r, GoMap.case_set (received r)).

Definition GoMap1Chan_step : system → system → Prop :=
  step (recv iface) GoMap1Chan.run_body
       (λ r, received (box_mapGet r)) (λ r, received (box_mapSet r)).

(** Callers A and B, each about to call [Set] on the same key. *)
Definition two_setters (m : gmap string iface) (n : chan)
    (key : string) (v1 v2 : iface) : system :=
  {| w := receiving m;
     callers := [start [op_set key v1]; start [op_set key v2]];
     chans := n |}.

(** Goroutines that from now on only call [Get], each on its list of
    keys. *)
Definition then_getters (sys : system) (keys : list (list string)) : system :=
  {| w := w sys;
     callers := (λ ks, start (op_get <$> ks)) <$> keys;
     chans := chans sys |}.

(** *** Invariants of the system *)

(** The worker owns the map [m] and is in step with the callers: while
    it waits for a request no caller is inside [Get]; while it is about
    to reply, one caller waits, on the channel of the reply, and the
    reply is the lookup of that caller's key in [m]. *)
Definition in_step (sys : system) (m : gmap string iface) : Prop :=
  match w sys with
  | receiving m' =>
      m' = m ∧ ∀ j cl, callers sys !! j = Some cl → pc cl = ready
  | replying m' c r =>
      m' = m ∧
      ∃ i cl key rest,
        callers sys !! i = Some cl ∧ pc cl = awaiting c ∧
        todo cl = op_get key :: rest ∧
        (mapResult_value r, mapResult_ok r) = map_index m key ∧
        ∀ j cl', j ≠ i → callers sys !! j = Some cl' → pc cl' = ready
  | finished => False
  | crashed _ => False
  end.

(** No caller has a [Set] left to make. *)
Definition only_gets (sys : system) : Prop :=
  ∀ j cl, callers sys !! j = Some cl → forallb is_get (todo cl) = true.

(** Every result a caller has got is the lookup of its key in [m]. *)
Definition gots_from (sys : system) (m : gmap string iface) : Prop :=
  ∀ j cl key r, callers sys !! j = Some cl → (key, r) ∈ got cl →
                r = map_index m key.

(** Where the system of [two_setters] can be: no [Set] served yet, one
    of them served, or both in one of the two orders. *)
Definition setters_inv (m : gmap string iface) (n : chan) (key : string)
    (v1 v2 : iface) (sys : system) : Prop :=
  chans sys = n ∧
  ((w sys = receiving m ∧
    callers sys = [start [op_set key v1]; start [op_set key v2]]) ∨
   (w sys = receiving (<[key := v1]> m) ∧
    callers sys = [start []; start [op_set key v2]]) ∨
   (w sys = receiving (<[key := v2]> m) ∧
    callers sys = [start [op_set key v1]; start []]) ∨
   (w sys = receiving (<[key := v2]> (<[key := v1]> m)) ∧
    callers sys = [start []; start []]) ∨
   (w sys = receiving (<[key := v1]> (<[key := v2]> m)) ∧
    callers sys = [start []; start []])).

(** Every goroutine of [then_getters] has made the [Get]s of the first
    [d] of its keys, for some [d], and has got for each the lookup in
    [m]. *)
Definition getters_done (m : gmap string iface) (keys : list (list string))
    (sys : system) : Prop :=
  length (callers sys) = length keys ∧
  ∀ i cl ks, callers sys !! i = Some cl → keys !! i = Some ks →
    ∃ d, todo cl = op_get <$> drop d ks ∧
         got cl = (λ k, (k, map_index m k)) <$> take d ks.

(** *** The order in which the worker serves the calls *)

Definition worker_map (wk : worker_pc) : option (gmap string iface) :=
  match wk with
  | receiving m => Some m
  | replying m _ _ => Some m
  | finished => None
  | crashed _ => None
  end.

(** The map after a call, and after a list of calls, each with the
    number of the caller that made it. *)
Definition exec_op (m : gmap string iface) (o : op) : gmap string iface :=
  match o with
  | op_set key value => <[key := value]> m
  | op_get _ => m
  end.

Definition exec_ops (m : gmap string iface) (tr : list (nat * op))
    : gmap string iface :=
  foldl (λ m x, exec_op m x.2) m tr.

(** The calls of [tr] made one after another on the map [m]: the result
    of every [Get], with its caller and its key. *)
Fixpoint replay (m : gmap string iface) (tr : list (nat * op))
    : list (nat * (string * (iface * bool))) :=
  match tr with
  | [] => []
  | (i, op_get key) :: rest => (i, (key, map_index m key)) :: replay m rest
  | (i, op_set key value) :: rest => replay (<[key := value]> m) rest
  end.

(** What belongs to caller [i] in a list tagged with callers. *)
Definition of_caller {A} (i : nat) (l : list (nat * A)) : list A :=
  (filter (λ x, x.1 = i) l).*2.

(** [tr] is an order of the calls served so far that explains [sys]:
    the worker's map is what the calls of [tr] make of [m0]; every
    caller has made its calls in the order of its program [progs !! i];
    and every [Get] has returned what it returns when the calls of [tr]
    are made one after another. *)
Definition explains (m0 : gmap string iface) (progs : list (list op))
    (tr : list (nat * op)) (sys : system) : Prop :=
  in_step sys (exec_ops m0 tr) ∧
  ∀ i cl, callers sys !! i = Some cl →
    match pc cl with
    | ready =>
        progs !! i = Some (of_caller i tr ++ todo cl) ∧
        got cl = of_caller i (replay m0 tr)
    | awaiting _ =>
        ∃ key rest,
          todo cl = op_get key :: rest ∧
          progs !! i = Some (of_caller i tr ++ rest) ∧
          of_caller i (replay m0 tr)
            = got cl ++ [(key, map_index (exec_ops m0 tr) key)]
    end.

(** ** More of the slice *)

(** [Append] called once for every value of [vs], in order. *)
Fixpoint Append_all (cs : ConcurrentSlice) (vs : list iface) : ConcurrentSlice :=
  match vs with
  | [] => cs
  | v :: rest => Append_all (Append cs v).2 rest
  end.



(** ** Requests as the workers receive them *)

(** What [Get] (with its reply channel [c]) and [Set] put on the
    channels of a [GoMap], as the case of the [select] that takes it. *)
Definition GoMap_request (x : chan * op) : GoMap.select_case :=
  match x.2 with
  | op_get key => GoMap.case_get (received {| mapGet_key := key; mapGet_out := x.1 |})
  | op_set key value =>
      GoMap.case_set (received {| mapSet_key := key; mapSet_value := value |})
  end.

(** The same for the one channel of a [GoMap1Chan]. *)
Definition GoMap1Chan_request (x : chan * op) : recv iface :=
  match x.2 with
  | op_get key => received (box_mapGet {| mapGet_key := key; mapGet_out := x.1 |})
  | op_set key value =>
      received (box_mapSet {| mapSet_key := key; mapSet_value := value |})
  end.

(** The replies a worker sends for the requests [reqs], served in order
    from the map [m]. *)
Definition replies_to (m : gmap string iface) (reqs : list (chan * op))
    : list (chan * mapResult) :=
  (λ x, (x.1, {| mapResult_value := x.2.2.1; mapResult_ok := x.2.2.2 |}))
    <$> replay m reqs.

(** ** The test harness *)

(** [strconv.Itoa] *)
Definition Itoa (n : Z) : string := pretty n.

(** ["The value " + key] *)
Definition the_value (key : string) : string := "The value " +:+ key.

(** [value != got], a string against an [interface{}]. *)
Definition differs (value : string) (got : iface) : bool :=
  match got with
  | string_iface s => negb (String.eqb value s)
  | _ => true
  end.

(** The calls [TheTest] makes in [n] turns of its loop from turn [i] on,
    [rnd j] being the number that [rnd.Int31n(500)] returns in turn [j]. *)
Fixpoint TheTest_calls (rnd : nat → Z) (n i : nat) : list op :=
  match n with
  | O => []
  | S n' =>
      let key := Itoa (rnd i) in
      op_set key (string_iface (the_value key)) :: op_get key
        :: TheTest_calls rnd n' (S i)
  end.

Section Harness.

(** What [fmt] prints for a value under [%v]. *)
Variable Sprint : iface → string.

Context {T : Type} `{Map T}.

(** [n] turns of the loop of [TheTest] from turn [i] on. *)
Fixpoint TheTest_loop (n i : nat) (rnd : nat → Z) (g : T) : outcome unit * T :=
  match n with
  | O => (Returned tt, g)
  | S n' =>
      let key := Itoa (rnd i) in
      let value := the_value key in
      match Set_ g key (string_iface value) with
      | (Returned _, g1) =>
          match Get g1 key with
          | (Returned (got, _), g2) =>
              if differs value got
              then (Panicked ("ERROR: expected " +:+ value +:+ ", got " +:+ Sprint got), g2)
              else TheTest_loop n' (S i) rnd g2
          | (Panicked msg, g2) => (Panicked msg, g2)
          | (Blocked, g2) => (Blocked, g2)
          end
      | (Panicked msg, g1) => (Panicked msg, g1)
      | (Blocked, g1) => (Blocked, g1)
      end
  end.

Definition TheTest (g : T) (rnd : nat → Z) : outcome unit * T :=
  TheTest_loop (Z.to_nat 100000) O rnd g.

End Harness.

(** [TestInParallel]: one goroutine per element of [rnds], each running
    [TheTest] with its own generator, against a worker that owns [m]. *)
Definition TestInParallel_system (m : gmap string iface) (n : chan)
    (rnds : list (nat → Z)) : system :=
  {| w := receiving m;
     callers := (λ rnd, start (TheTest_calls rnd (Z.to_nat 100000) O)) <$> rnds;
     chans := n |}.

(** Every value in the map is the one [TheTest] stores under its key. *)
Definition test_values (m : gmap string iface) : Prop :=
  ∀ key v, m !! key = Some v → v = string_iface (the_value key).

(** Where a goroutine of [TheTest] can be: before a [Set], or between
    its [Set] and the [Get] of the same key, the key then being in the
    map. *)
Definition in_TheTest (m : gmap string iface) (cl : caller) : Prop :=
  (∃ rnd n i, todo cl = TheTest_calls rnd n i) ∨
  (∃ key rnd n i,
     todo cl = op_get key :: TheTest_calls rnd n i ∧ is_Some (m !! key)).

Definition TestInParallel_inv (sys : system) : Prop :=
  ∃ m,
    in_step sys m ∧ test_values m ∧
    ∀ j cl, callers sys !! j = Some cl →
      in_TheTest m cl ∧
      ∀ key r, (key, r) ∈ got cl → r = (string_iface (the_value key), true).

(** Caller [a] is about to [Set] and then [Get] the key [key], which no
    other caller ever sets: where the system can be from then on. [G] is
    what caller [a] has got before. *)
Definition own_write_inv (a : nat) (key : string) (value : iface)
    (rest : list op) (G : list (string * (iface * bool))) (sys : system) : Prop :=
  ∃ m,
    in_step sys m ∧
    (∀ j cl, j ≠ a → callers sys !! j = Some cl → ∀ v, op_set key v ∉ todo cl) ∧
    ∃ cl,
      callers sys !! a = Some cl ∧
      ((todo cl = op_set key value :: op_get key :: rest ∧ got cl = G) ∨
       (todo cl = op_get key :: rest ∧ got cl = G ∧ m !! key = Some value) ∨
       (∃ more, got cl = G ++ (key, (value, true)) :: more ∧ todo cl `suffix_of` rest)).

(** ** Several callers of a [SyncMap]

    Where a goroutine is with respect to the lock of the map. A writer
    inside [Lock()] that has announced itself keeps new readers out
    while it waits for the readers inside to leave; a goroutine that
    waits in [RLock()], or in [Lock()] behind another writer, does not
    act on the others and counts as [outside]. *)
Inductive lock_pc : Type :=
| outside
| Lock_pending    (* in [Set], inside [Lock()], announced *)
| holds_Lock      (* in [Set], past [Lock()], before [s.m[key] = value] *)
| holds_RLock.    (* in [Get], past [RLock()], before the lookup *)

Record goroutine : Type :=
  { g_todo : list op;                        (* the calls still to make *)
    g_pc : lock_pc;
    g_got : list (string * (iface * bool)) } (* key and result of each [Get] made *).

Record shared : Type :=
  { shared_m : gmap string iface; goroutines : list goroutine }.

Definition nobody_at (p : lock_pc) (gs : list goroutine) : Prop :=
  ∀ j g, gs !! j = Some g → g_pc g ≠ p.

Inductive SyncMap_step : shared → shared → Prop :=
| step_Lock_announce sh i g key value rest :
    (* [Set]: [s.lock.Lock()] begins; no other writer is inside [Lock()]
       or past it *)
    goroutines sh !! i = Some g → g_pc g = outside →
    g_todo g = op_set key value :: rest →
    nobody_at Lock_pending (goroutines sh) → nobody_at holds_Lock (goroutines sh) →
    SyncMap_step sh
      {| shared_m := shared_m sh;
         goroutines := <[i := {| g_todo := g_todo g; g_pc := Lock_pending;
                                 g_got := g_got g |}]> (goroutines sh) |}
| step_Lock_acquire sh i g :
    (* [s.lock.Lock()] returns: the readers have left *)
    goroutines sh !! i = Some g → g_pc g = Lock_pending →
    nobody_at holds_RLock (goroutines sh) →
    SyncMap_step sh
      {| shared_m := shared_m sh;
         goroutines := <[i := {| g_todo := g_todo g; g_pc := holds_Lock;
                                 g_got := g_got g |}]> (goroutines sh) |}
| step_Set_return sh i g key value rest :
    (* [s.m[key] = value], the deferred [Unlock()], return *)
    goroutines sh !! i = Some g → g_pc g = holds_Lock →
    g_todo g = op_set key value :: rest →
    SyncMap_step sh
      {| shared_m := <[key := value]> (shared_m sh);
         goroutines := <[i := {| g_todo := rest; g_pc := outside;
                                 g_got := g_got g |}]> (goroutines sh) |}
| step_RLock_acquire sh i g key rest :
    (* [Get]: [s.lock.RLock()] returns; no writer is inside [Lock()] or
       past it *)
    goroutines sh !! i = Some g → g_pc g = outside →
    g_todo g = op_get key :: rest →
    nobody_at Lock_pending (goroutines sh) → nobody_at holds_Lock (goroutines sh) →
    SyncMap_step sh
      {| shared_m := shared_m sh;
         goroutines := <[i := {| g_todo := g_todo g; g_pc := holds_RLock;
                                 g_got := g_got g |}]> (goroutines sh) |}
| step_Get_return sh i g key rest :
    (* [value, ok := s.m[key]], the deferred [RUnlock()], return *)
    goroutines sh !! i = Some g → g_pc g = holds_RLock →
    g_todo g = op_get key :: rest →
    SyncMap_step sh
      {| shared_m := shared_m sh;
         goroutines := <[i := {| g_todo := rest; g_pc := outside;
                                 g_got := g_got g ++ [(key, map_index (shared_m sh) key)] |}]>
                         (goroutines sh) |}.

(** [TestInParallel] on the [SyncMap] [s]. *)
Definition TestInParallel_shared (s : SyncMap.t) (rnds : list (nat → Z)) : shared :=
  {| shared_m := SyncMap.m s;
     goroutines :=
       (λ rnd, {| g_todo := TheTest_calls rnd (Z.to_nat 100000) O;
                  g_pc := outside; g_got := [] |}) <$> rnds |}.

(** A writer inside or past [Lock()] is the only one, and once it is
    past [Lock()] every other goroutine is outside. *)
Definition one_writer (gs : list goroutine) : Prop :=
  ∀ i gi, gs !! i = Some gi → g_pc gi = Lock_pending ∨ g_pc gi = holds_Lock →
    ∀ j gj, j ≠ i → gs !! j = Some gj →
      g_pc gj ≠ Lock_pending ∧ g_pc gj ≠ holds_Lock ∧
      (g_pc gi = holds_Lock → g_pc gj = outside).

(** A goroutine inside a call has that call first in its list. *)
Definition in_its_call (g : goroutine) : Prop :=
  match g_pc g with
  | outside => True
  | Lock_pending => ∃ key value rest, g_todo g = op_set key value :: rest
  | holds_Lock => ∃ key value rest, g_todo g = op_set key value :: rest
  | holds_RLock => ∃ key rest, g_todo g = op_get key :: rest
  end.

(** Where a goroutine of [TheTest] can be (as [in_TheTest]). *)
Definition goroutine_in_TheTest (m : gmap string iface) (g : goroutine) : Prop :=
  (∃ rnd n i, g_todo g = TheTest_calls rnd n i) ∨
  (∃ key rnd n i,
     g_todo g = op_get key :: TheTest_calls rnd n i ∧ is_Some (m !! key)).

Definition TestInParallel_shared_inv (sh : shared) : Prop :=
  one_writer (goroutines sh) ∧ test_values (shared_m sh) ∧
  ∀ j g, goroutines sh !! j = Some g →
    in_its_call g ∧ goroutine_in_TheTest (shared_m sh) g ∧
    ∀ key r, (key, r) ∈ g_got g → r = (string_iface (the_value key), true).

(** * Properties *)

(** ** The lock *)

Lemma RLock_free mu : writer mu = false → is_Some (RLock mu).
Proof. intros H. unfold RLock. rewrite H. eauto. Qed.

Lemma deferred_RUnlock {A} mu mu1 (r : outcome A) :
  RLock mu = Some mu1 → deferred RUnlock mu1 r = (r, mu).
Proof.
  destruct mu as [[] n]; unfold RLock; simpl; [done|].
  intros [= <-]. reflexivity.
Qed.

Lemma Lock_Some mu mu1 : Lock mu = Some mu1 → mu = unlocked.
Proof.
  destruct mu as [[] [|n]]; unfold Lock; simpl; try done.
Qed.

Lemma deferred_Unlock {A} mu mu1 (r : outcome A) :
  Lock mu = Some mu1 → deferred Unlock mu1 r = (r, mu).
Proof.
  intros H. pose proof (Lock_Some _ _ H) as ->.
  revert H. unfold Lock; simpl. intros [= <-]. reflexivity.
Qed.

Lemma ConcurrentSlice_eta cs : {| mu := mu cs; items := items cs |} = cs.
Proof. by destruct cs. Qed.

(** ** ConcurrentSlice *)

Lemma Checked_Get_unfold cs index :
  writer (mu cs) = false →
  Checked.Get cs index =
    (if Checked.isset (items cs) index then index_expr (items cs) index
     else Returned nil_iface, cs).
Proof.
  intros H. unfold Checked.Get.
  destruct (RLock_free _ H) as [mu1 Hmu1]. rewrite Hmu1.
  rewrite (deferred_RUnlock _ _ _ Hmu1). by rewrite ConcurrentSlice_eta.
Qed.

Lemma Unchecked_Get_unfold cs index :
  mu cs = unlocked →
  Unchecked.Get cs index = (index_expr (items cs) index, cs).
Proof.
  intros H. unfold Unchecked.Get. rewrite H. simpl.
  destruct cs as [mu0 its]; simpl in *. by subst.
Qed.

Lemma index_expr_in_range arr index v :
  0 <= index → arr !! Z.to_nat index = Some v → index_expr arr index = Returned v.
Proof.
  intros H0 Hv. unfold index_expr.
  destruct (Z.ltb_spec index 0); [lia|]. by rewrite Hv.
Qed.

Lemma index_expr_negative arr index :
  index < 0 → panics (index_expr arr index) = true.
Proof.
  intros H. unfold index_expr. by destruct (Z.ltb_spec index 0); [|lia].
Qed.

Lemma isset_true arr index : Checked.isset arr index = true ↔ index < len arr.
Proof. unfold Checked.isset. rewrite Z.gtb_ltb, Z.ltb_lt. done. Qed.

Lemma isset_false arr index : Checked.isset arr index = false ↔ len arr <= index.
Proof. unfold Checked.isset. rewrite Z.gtb_ltb, Z.ltb_ge. done. Qed.

Lemma Get_past_end cs index :
  writer (mu cs) = false → len (items cs) <= index →
  Checked.Get cs index = (Returned nil_iface, cs).
Proof.
  intros Hmu Hlen. rewrite Checked_Get_unfold by done.
  apply isset_false in Hlen. by rewrite Hlen.
Qed.

Lemma Get_in_range cs index v :
  writer (mu cs) = false → 0 <= index → items cs !! Z.to_nat index = Some v →
  Checked.Get cs index = (Returned v, cs).
Proof.
  intros Hmu H0 Hv. rewrite Checked_Get_unfold by done.
  assert (index < len (items cs)) as Hlt.
  { apply lookup_lt_Some in Hv. unfold len. lia. }
  apply isset_true in Hlt. rewrite Hlt.
  by rewrite (index_expr_in_range _ _ v).
Qed.

Lemma Get_negative cs index :
  writer (mu cs) = false → index < 0 →
  panics (Checked.Get cs index).1 = true ∧ (Checked.Get cs index).2 = cs.
Proof.
  intros Hmu Hneg. rewrite Checked_Get_unfold by done. simpl.
  assert (index < len (items cs)) as Hlt by (unfold len; lia).
  apply isset_true in Hlt. rewrite Hlt.
  split; [by apply index_expr_negative | done].
Qed.

(** C1 (the code departs from the claim): on the version of [Get] that
    tests the index, [isset] accepts every negative index, so [Get(-1)]
    reaches the index expression and panics, on the empty slice and on a
    slice of one element alike; past the end [Get] does return [nil]. *)
Theorem C1_Get_negative_index_panics :
  Checked.isset [] (-1) = true ∧
  Checked.Get NewConcurrentSlice (-1)
    = (Panicked "runtime error: index out of range", NewConcurrentSlice) ∧
  Checked.Get {| mu := unlocked; items := [string_iface "a"] |} (-1)
    = (Panicked "runtime error: index out of range",
       {| mu := unlocked; items := [string_iface "a"] |}) ∧
  Checked.Get NewConcurrentSlice 0 = (Returned nil_iface, NewConcurrentSlice).
Proof. repeat split. Qed.

(** C2, counterexample: [Get] returns one value and no flag. Index 0 is
    present in the slice that holds one [nil] and absent from the empty
    slice, and [Get] answers both calls alike: nothing in the result
    reports the absence. *)
Lemma C2_Get_result_has_no_found_flag :
  (Checked.Get {| mu := unlocked; items := [nil_iface] |} 0).1
    = (Checked.Get NewConcurrentSlice 0).1 ∧
  Checked.isset [nil_iface] 0 = true ∧
  Checked.isset [] 0 = false.
Proof. repeat split. Qed.

(** No function of the result of [Get] tells a present index from an
    absent one. *)
Lemma Get_found_not_definable :
  ¬ ∃ found : outcome iface → bool,
      ∀ cs index, writer (mu cs) = false → 0 <= index →
        (found (Checked.Get cs index).1 = true ↔ index < len (items cs)).
Proof.
  intros [found Hf].
  pose proof (Hf {| mu := unlocked; items := [nil_iface] |} 0 eq_refl ltac:(lia)) as H1.
  pose proof (Hf NewConcurrentSlice 0 eq_refl ltac:(lia)) as H2.
  simpl in H1, H2. unfold len in *; simpl in *.
  destruct H1 as [_ H1]. destruct H2 as [H2 _].
  specialize (H1 ltac:(lia)). specialize (H2 H1). lia.
Qed.

(** ** The three maps, one caller *)

Lemma map_index_insert m key value :
  map_index (<[key := value]> m) key = (value, true).
Proof. unfold map_index. by rewrite lookup_insert_eq. Qed.

Lemma map_index_insert_ne m key key' value :
  key ≠ key' → map_index (<[key := value]> m) key' = map_index m key'.
Proof. intros H. unfold map_index. by rewrite lookup_insert_ne. Qed.

Lemma map_index_missing m key :
  m !! key = None → map_index m key = (nil_iface, false).
Proof. intros H. unfold map_index. by rewrite H. Qed.

Lemma map_index_present m key value :
  m !! key = Some value → map_index m key = (value, true).
Proof. intros H. unfold map_index. by rewrite H. Qed.

Lemma SyncMap_Get_unfold s key :
  writer (SyncMap.lock s) = false →
  SyncMap.Get s key = (Returned (map_index (SyncMap.m s) key), s).
Proof.
  intros H. unfold SyncMap.Get.
  destruct (RLock_free _ H) as [l1 Hl1]. rewrite Hl1.
  destruct (map_index _ _) as [value ok].
  rewrite (deferred_RUnlock _ _ _ Hl1). by destruct s.
Qed.

Lemma SyncMap_Set_unfold s key value :
  SyncMap.lock s = unlocked →
  SyncMap.Set_ s key value =
    (Returned tt, {| SyncMap.lock := unlocked;
                     SyncMap.m := <[key := value]> (SyncMap.m s) |}).
Proof. intros H. unfold SyncMap.Set_. by rewrite H. Qed.

Lemma GoMap_Get_unfold g key :
  GoMap.closed g = false → GoMap.worker g = running →
  GoMap.Get g key =
    (Returned (map_index (GoMap.m g) key),
     {| GoMap.m := GoMap.m g; GoMap.made := S (GoMap.made g);
        GoMap.closed := false; GoMap.worker := running |}).
Proof.
  intros Hc Hw. unfold GoMap.Get. simpl. rewrite Hc, Hw. simpl.
  destruct (map_index _ _) as [value ok]. by rewrite Nat.eqb_refl.
Qed.

Lemma GoMap_Set_unfold g key value :
  GoMap.closed g = false → GoMap.worker g = running →
  GoMap.Set_ g key value =
    (Returned tt,
     {| GoMap.m := <[key := value]> (GoMap.m g); GoMap.made := GoMap.made g;
        GoMap.closed := false; GoMap.worker := running |}).
Proof. intros Hc Hw. unfold GoMap.Set_. by rewrite Hc, Hw. Qed.

Lemma GoMap1Chan_Get_unfold g key :
  GoMap1Chan.closed g = false → GoMap1Chan.worker g = running →
  GoMap1Chan.Get g key =
    (Returned (map_index (GoMap1Chan.m g) key),
     {| GoMap1Chan.m := GoMap1Chan.m g; GoMap1Chan.made := S (GoMap1Chan.made g);
        GoMap1Chan.closed := false; GoMap1Chan.worker := running |}).
Proof.
  intros Hc Hw. unfold GoMap1Chan.Get. simpl. rewrite Hc, Hw. simpl.
  destruct (map_index _ _) as [value ok]. by rewrite Nat.eqb_refl.
Qed.

Lemma GoMap1Chan_Set_unfold g key value :
  GoMap1Chan.closed g = false → GoMap1Chan.worker g = running →
  GoMap1Chan.Set_ g key value =
    (Returned tt,
     {| GoMap1Chan.m := <[key := value]> (GoMap1Chan.m g);
        GoMap1Chan.made := GoMap1Chan.made g;
        GoMap1Chan.closed := false; GoMap1Chan.worker := running |}).
Proof. intros Hc Hw. unfold GoMap1Chan.Set_. by rewrite Hc, Hw. Qed.

(** C2 (as amended): [Get] on a [ConcurrentSlice] returns one value. For
    an index at or past the length it returns [nil] and the slice is as
    before; for an index from 0 up to the length it returns the element
    stored there. On each of the three maps a [Get] of a key that is not
    in the map returns [nil] with [ok = false]. None of these calls
    panics. *)
Theorem C2_Get_absence cs index s g g1 key :
  writer (mu cs) = false → 0 <= index →
  writer (SyncMap.lock s) = false → SyncMap.m s !! key = None →
  GoMap.closed g = false → GoMap.worker g = running → GoMap.m g !! key = None →
  GoMap1Chan.closed g1 = false → GoMap1Chan.worker g1 = running →
  GoMap1Chan.m g1 !! key = None →
  (len (items cs) <= index → Checked.Get cs index = (Returned nil_iface, cs)) ∧
  (index < len (items cs) →
     ∃ v, items cs !! Z.to_nat index = Some v ∧
          Checked.Get cs index = (Returned v, cs)) ∧
  (SyncMap.Get s key).1 = Returned (nil_iface, false) ∧
  (GoMap.Get g key).1 = Returned (nil_iface, false) ∧
  (GoMap1Chan.Get g1 key).1 = Returned (nil_iface, false).
Proof.
  intros Hmu H0 Hs Hsk Hgc Hgw Hgk H1c H1w H1k. repeat split.
  - intros Hlen. by apply Get_past_end.
  - intros Hlt.
    destruct (lookup_lt_is_Some_2 (items cs) (Z.to_nat index)) as [v Hv].
    { unfold len in Hlt. lia. }
    exists v. split; [done|]. by apply Get_in_range.
  - rewrite SyncMap_Get_unfold by done. simpl. by rewrite map_index_missing.
  - rewrite GoMap_Get_unfold by done. simpl. by rewrite map_index_missing.
  - rewrite GoMap1Chan_Get_unfold by done. simpl. by rewrite map_index_missing.
Qed.

Lemma C2_Get_absence_witness :
  (len [string_iface "a"] <= 1 →
     Checked.Get {| mu := unlocked; items := [string_iface "a"] |} 1
       = (Returned nil_iface, {| mu := unlocked; items := [string_iface "a"] |})) ∧
  (1 < len [string_iface "a"] →
     ∃ v, [string_iface "a"] !! Z.to_nat 1 = Some v ∧
          Checked.Get {| mu := unlocked; items := [string_iface "a"] |} 1
            = (Returned v, {| mu := unlocked; items := [string_iface "a"] |})) ∧
  (SyncMap.Get SyncMap.NewSyncMap "999").1 = Returned (nil_iface, false) ∧
  (GoMap.Get GoMap.NewGoMap "999").1 = Returned (nil_iface, false) ∧
  (GoMap1Chan.Get GoMap1Chan.NewGoMap1Chan "999").1 = Returned (nil_iface, false).
Proof.
  apply (C2_Get_absence {| mu := unlocked; items := [string_iface "a"] |} 1
           SyncMap.NewSyncMap GoMap.NewGoMap GoMap1Chan.NewGoMap1Chan "999");
    first [reflexivity | lia].
Defined.

(** C3: on a new store of each kind, [Set("7", "The value 7")] returns,
    the [Get("7")] after it returns the value and [true], and the
    [Get("999")] after that returns [nil] and [false]. *)
Theorem C3_end_to_end :
  let ops := [op_set "7" (string_iface "The value 7"); op_get "7"; op_get "999"] in
  let expected := Returned [(string_iface "The value 7", true); (nil_iface, false)] in
  ((Set_ SyncMap.NewSyncMap "7" (string_iface "The value 7")).1 = Returned tt ∧
   (Set_ GoMap.NewGoMap "7" (string_iface "The value 7")).1 = Returned tt ∧
   (Set_ GoMap1Chan.NewGoMap1Chan "7" (string_iface "The value 7")).1 = Returned tt) ∧
  (calls SyncMap.NewSyncMap ops).1 = expected ∧
  (calls GoMap.NewGoMap ops).1 = expected ∧
  (calls GoMap1Chan.NewGoMap1Chan ops).1 = expected.
Proof. repeat split; vm_compute; reflexivity. Qed.

(** ** The two workers compared *)







(** ** Iteration *)

Lemma drain_range_send arr :
  ∀ index, ∃ its,
    range_send index arr = send <$> its ∧
    drain (range_send index arr ++ [close]) = (its, true) ∧
    length its = length arr ∧
    ∀ i v, arr !! i = Some v →
           its !! i = Some {| Index := index + Z.of_nat i; Value := v |}.
Proof.
  induction arr as [|value rest IH]; intros index.
  - exists []. repeat split; done.
  - destruct (IH (index + 1)) as (its & Hsend & Hdrain & Hlen & Hlook).
    exists ({| Index := index; Value := value |} :: its). simpl.
    rewrite Hsend. rewrite Hsend in Hdrain. rewrite Hdrain.
    repeat split; [by rewrite Hlen|].
    intros [|i] v Hv.
    + injection Hv as ->. by rewrite Z.add_0_r.
    + change (its !! i = Some {| Index := index + Z.of_nat (S i); Value := v |}).
      change (rest !! i = Some v) in Hv.
      rewrite (Hlook i v Hv). do 2 f_equal. lia.
Qed.

(** C5: the goroutine of [Iter] sends on the channel one item per
    element of the slice, the element at position [i] as the item
    [(i, v_i)], in increasing order of [i], then closes the channel: a
    [range] over the channel receives exactly these items and ends. This
    holds for both versions of [Iter], which differ in the lock they
    take, and the slice is as before when the goroutine is done. *)
Theorem C5_Iter_sends_items_in_order cs :
  writer (mu cs) = false →
  ∃ its,
    Checked.Iter_f cs = (Returned ((send <$> its) ++ [close]), cs) ∧
    (mu cs = unlocked →
       Unchecked.Iter_f cs = (Returned ((send <$> its) ++ [close]), cs)) ∧
    drain ((send <$> its) ++ [close]) = (its, true) ∧
    length its = length (items cs) ∧
    ∀ i v, items cs !! i = Some v →
           its !! i = Some {| Index := Z.of_nat i; Value := v |}.
Proof.
  intros Hmu.
  destruct (drain_range_send (items cs) 0) as (its & Hsend & Hdrain & Hlen & Hlook).
  exists its. rewrite <- Hsend. repeat split; try done.
  - unfold Checked.Iter_f. destruct (RLock_free _ Hmu) as [mu1 Hmu1].
    rewrite Hmu1. rewrite (deferred_RUnlock _ _ _ Hmu1).
    by rewrite ConcurrentSlice_eta.
  - intros Hun. unfold Unchecked.Iter_f. rewrite Hun. simpl.
    destruct cs; simpl in *. by subst.
Qed.

Lemma C5_Iter_sends_items_in_order_witness :
  ∃ its,
    Checked.Iter_f {| mu := unlocked; items := [string_iface "a"; int_iface 5] |}
      = (Returned ((send <$> its) ++ [close]),
         {| mu := unlocked; items := [string_iface "a"; int_iface 5] |}) ∧
    (unlocked = unlocked →
       Unchecked.Iter_f {| mu := unlocked; items := [string_iface "a"; int_iface 5] |}
         = (Returned ((send <$> its) ++ [close]),
            {| mu := unlocked; items := [string_iface "a"; int_iface 5] |})) ∧
    drain ((send <$> its) ++ [close]) = (its, true) ∧
    length its = 2%nat ∧
    ∀ i v, [string_iface "a"; int_iface 5] !! i = Some v →
           its !! i = Some {| Index := Z.of_nat i; Value := v |}.
Proof.
  apply (C5_Iter_sends_items_in_order
           {| mu := unlocked; items := [string_iface "a"; int_iface 5] |}).
  reflexivity.
Defined.

(** ** Append *)

Lemma Append_unfold cs item :
  mu cs = unlocked →
  Append cs item = (Returned tt, {| mu := unlocked; items := items cs ++ [item] |}).
Proof. intros H. unfold Append. by rewrite H. Qed.

(** C8: [Append] on a slice whose lock is free returns, and the slice is
    then one element longer, the new element last. An index below the
    old length still retrieves the element it retrieved before, and the
    old length retrieves the appended element. *)
Theorem C8_Append_grows_at_end cs v :
  mu cs = unlocked →
  ∃ cs',
    Append cs v = (Returned tt, cs') ∧
    mu cs' = unlocked ∧
    items cs' = items cs ++ [v] ∧
    len (items cs') = len (items cs) + 1 ∧
    (∀ i, 0 <= i < len (items cs) →
       ∃ x, (Checked.Get cs i).1 = Returned x ∧ (Checked.Get cs' i).1 = Returned x) ∧
    (Checked.Get cs' (len (items cs))).1 = Returned v.
Proof.
  intros Hmu. exists {| mu := unlocked; items := items cs ++ [v] |}.
  assert (writer (mu cs) = false) as Hw by (by rewrite Hmu).
  split; [by apply Append_unfold|]. split; [done|]. split; [done|].
  cbn [items]. split; [|split].
  - unfold len. rewrite length_app. simpl. lia.
  - intros i [H0 Hlt].
    destruct (lookup_lt_is_Some_2 (items cs) (Z.to_nat i)) as [x Hx].
    { unfold len in Hlt. lia. }
    exists x. rewrite (Get_in_range cs i x) by done.
    rewrite (Get_in_range _ i x); [done..|].
    simpl. by apply lookup_app_l_Some.
  - rewrite (Get_in_range _ _ v); [done|done|unfold len; lia|].
    simpl. unfold len. rewrite Nat2Z.id.
    rewrite lookup_app_r by lia. by rewrite Nat.sub_diag.
Qed.

Lemma C8_Append_grows_at_end_witness :
  ∃ cs',
    Append {| mu := unlocked; items := [int_iface 1; int_iface 2] |} (int_iface 3)
      = (Returned tt, cs') ∧
    mu cs' = unlocked ∧
    items cs' = [int_iface 1; int_iface 2] ++ [int_iface 3] ∧
    len (items cs') = len [int_iface 1; int_iface 2] + 1 ∧
    (∀ i, 0 <= i < len [int_iface 1; int_iface 2] →
       ∃ x, (Checked.Get {| mu := unlocked; items := [int_iface 1; int_iface 2] |} i).1
              = Returned x ∧
            (Checked.Get cs' i).1 = Returned x) ∧
    (Checked.Get cs' (len [int_iface 1; int_iface 2])).1 = Returned (int_iface 3).
Proof.
  apply (C8_Append_grows_at_end
           {| mu := unlocked; items := [int_iface 1; int_iface 2] |} (int_iface 3)).
  reflexivity.
Defined.

(** ** Last write wins *)

(** C6: on each of the three maps, [Set(k, v1)] returns, [Set(k, v2)]
    after it returns, and a [Get(k)] after both returns [v2] and [true],
    whatever the map held before; the map then has [v2] under [k]. A
    [Get] of any other key after the two [Set]s returns what the map
    held under that key before them, and the map still holds it. *)
Theorem C6_last_Set_wins key v1 v2 key' s g g1 :
  SyncMap.lock s = unlocked →
  GoMap.closed g = false → GoMap.worker g = running →
  GoMap1Chan.closed g1 = false → GoMap1Chan.worker g1 = running →
  ((calls s [op_set key v1; op_set key v2; op_get key]).1 = Returned [(v2, true)] ∧
   (calls g [op_set key v1; op_set key v2; op_get key]).1 = Returned [(v2, true)] ∧
   (calls g1 [op_set key v1; op_set key v2; op_get key]).1 = Returned [(v2, true)]) ∧
  (SyncMap.m (calls s [op_set key v1; op_set key v2; op_get key]).2 !! key = Some v2 ∧
   GoMap.m (calls g [op_set key v1; op_set key v2; op_get key]).2 !! key = Some v2 ∧
   GoMap1Chan.m (calls g1 [op_set key v1; op_set key v2; op_get key]).2 !! key
     = Some v2) ∧
  (key ≠ key' →
   (calls s [op_set key v1; op_set key v2; op_get key']).1
     = Returned [map_index (SyncMap.m s) key'] ∧
   (calls g [op_set key v1; op_set key v2; op_get key']).1
     = Returned [map_index (GoMap.m g) key'] ∧
   (calls g1 [op_set key v1; op_set key v2; op_get key']).1
     = Returned [map_index (GoMap1Chan.m g1) key'] ∧
   SyncMap.m (calls s [op_set key v1; op_set key v2; op_get key']).2 !! key'
     = SyncMap.m s !! key' ∧
   GoMap.m (calls g [op_set key v1; op_set key v2; op_get key']).2 !! key'
     = GoMap.m g !! key' ∧
   GoMap1Chan.m (calls g1 [op_set key v1; op_set key v2; op_get key']).2 !! key'
     = GoMap1Chan.m g1 !! key').
Proof.
  intros Hs Hgc Hgw H1c H1w.
  assert (writer (SyncMap.lock s) = false) as Hsw by (by rewrite Hs).
  unfold calls, Get, Set_; simpl.
  rewrite !SyncMap_Set_unfold, !GoMap_Set_unfold, !GoMap1Chan_Set_unfold by done.
  rewrite !SyncMap_Get_unfold, !GoMap_Get_unfold, !GoMap1Chan_Get_unfold by done.
  simpl. rewrite !map_index_insert, !lookup_insert_eq.
  split; [done|]. split; [done|]. intros Hne.
  rewrite !map_index_insert_ne, !lookup_insert_ne by done. done.
Qed.

Lemma C6_last_Set_wins_witness :
  let v1 := int_iface 1 in
  let v2 := int_iface 2 in
  let s := SyncMap.NewSyncMap in
  let g := GoMap.NewGoMap in
  let g1 := GoMap1Chan.NewGoMap1Chan in
  ((calls s [op_set "k" v1; op_set "k" v2; op_get "k"]).1 = Returned [(v2, true)] ∧
   (calls g [op_set "k" v1; op_set "k" v2; op_get "k"]).1 = Returned [(v2, true)] ∧
   (calls g1 [op_set "k" v1; op_set "k" v2; op_get "k"]).1 = Returned [(v2, true)]) ∧
  (SyncMap.m (calls s [op_set "k" v1; op_set "k" v2; op_get "k"]).2 !! "k" = Some v2 ∧
   GoMap.m (calls g [op_set "k" v1; op_set "k" v2; op_get "k"]).2 !! "k" = Some v2 ∧
   GoMap1Chan.m (calls g1 [op_set "k" v1; op_set "k" v2; op_get "k"]).2 !! "k"
     = Some v2) ∧
  ("k" ≠ "j" →
   (calls s [op_set "k" v1; op_set "k" v2; op_get "j"]).1
     = Returned [map_index (SyncMap.m s) "j"] ∧
   (calls g [op_set "k" v1; op_set "k" v2; op_get "j"]).1
     = Returned [map_index (GoMap.m g) "j"] ∧
   (calls g1 [op_set "k" v1; op_set "k" v2; op_get "j"]).1
     = Returned [map_index (GoMap1Chan.m g1) "j"] ∧
   SyncMap.m (calls s [op_set "k" v1; op_set "k" v2; op_get "j"]).2 !! "j"
     = SyncMap.m s !! "j" ∧
   GoMap.m (calls g [op_set "k" v1; op_set "k" v2; op_get "j"]).2 !! "j"
     = GoMap.m g !! "j" ∧
   GoMap1Chan.m (calls g1 [op_set "k" v1; op_set "k" v2; op_get "j"]).2 !! "j"
     = GoMap1Chan.m g1 !! "j").
Proof.
  intros v1 v2 s g g1.
  apply (C6_last_Set_wins "k" v1 v2 "j" s g g1); reflexivity.
Defined.

(** ** Get leaves the store as it is *)

Lemma SyncMap_Get_state s key : (SyncMap.Get s key).2 = s.
Proof.
  unfold SyncMap.Get. destruct (RLock (SyncMap.lock s)) as [l1|] eqn:Hl; [|done].
  destruct (map_index _ _) as [value ok].
  rewrite (deferred_RUnlock _ _ _ Hl). by destruct s.
Qed.

Lemma Checked_Get_state cs index : (Checked.Get cs index).2 = cs.
Proof.
  unfold Checked.Get. destruct (RLock (mu cs)) as [mu1|] eqn:Hl; [|done].
  rewrite (deferred_RUnlock _ _ _ Hl). by destruct cs.
Qed.

Lemma Unchecked_Get_state cs index : (Unchecked.Get cs index).2 = cs.
Proof.
  unfold Unchecked.Get. destruct (Lock (mu cs)) as [mu1|] eqn:Hl; [|done].
  rewrite (deferred_Unlock _ _ _ Hl). by destruct cs.
Qed.

Lemma GoMap_Get_m g key : GoMap.m (GoMap.Get g key).2 = GoMap.m g.
Proof.
  unfold GoMap.Get; simpl. destruct (GoMap.closed g); [done|].
  destruct (GoMap.worker g); [|done]. simpl.
  destruct (map_index _ _) as [value ok]. by rewrite Nat.eqb_refl.
Qed.

Lemma GoMap1Chan_Get_m g key : GoMap1Chan.m (GoMap1Chan.Get g key).2 = GoMap1Chan.m g.
Proof.
  unfold GoMap1Chan.Get; simpl. destruct (GoMap1Chan.closed g); [done|].
  destruct (GoMap1Chan.worker g); [|done]. simpl.
  destruct (map_index _ _) as [value ok]. by rewrite Nat.eqb_refl.
Qed.

(** C10: a [Get] changes nothing. On a [SyncMap] and on a
    [ConcurrentSlice] (both versions of [Get], whatever the index and
    whether the call returns, panics or waits) the store after the call
    is the store before it, lock included; on a [GoMap] and a
    [GoMap1Chan] the map the worker owns is the same after the call, and
    the worker's turn for a read request goes round with the map it
    had. *)
Theorem C10_Get_is_read_only :
  (∀ s key, (SyncMap.Get s key).2 = s) ∧
  (∀ g key, GoMap.m (GoMap.Get g key).2 = GoMap.m g) ∧
  (∀ g key, GoMap1Chan.m (GoMap1Chan.Get g key).2 = GoMap1Chan.m g) ∧
  (∀ m r, ∃ reply, GoMap.run_body m (GoMap.case_get (received r))
                     = next_iter m (Some reply)) ∧
  (∀ m r, ∃ reply, GoMap1Chan.run_body m (received (box_mapGet r))
                     = next_iter m (Some reply)) ∧
  (∀ cs index, (Checked.Get cs index).2 = cs) ∧
  (∀ cs index, (Unchecked.Get cs index).2 = cs).
Proof.
  repeat split.
  - apply SyncMap_Get_state.
  - apply GoMap_Get_m.
  - apply GoMap1Chan_Get_m.
  - intros m r. simpl. destruct (map_index _ _). eauto.
  - intros m r. simpl. destruct (map_index _ _). eauto.
  - apply Checked_Get_state.
  - apply Unchecked_Get_state.
Qed.

(** ** The workers on a list of requests *)

Lemma exec_ops_cons m x tr : exec_ops m (x :: tr) = exec_ops (exec_op m x.2) tr.
Proof. done. Qed.

Lemma GoMap_run_requests reqs : ∀ m tail,
  GoMap.run m ((GoMap_request <$> reqs) ++ tail)
    = {| run_m := run_m (GoMap.run (exec_ops m reqs) tail);
         run_replies := replies_to m reqs
                          ++ run_replies (GoMap.run (exec_ops m reqs) tail);
         run_status := run_status (GoMap.run (exec_ops m reqs) tail) |}.
Proof.
  induction reqs as [|[c [key|key value]] reqs IH]; intros m tail.
  - simpl. by destruct (GoMap.run m tail).
  - rewrite fmap_cons, exec_ops_cons. simpl.
    destruct (map_index m key) as [value ok] eqn:Hk. rewrite IH.
    unfold add_reply, replies_to. simpl. by rewrite ?Hk.
  - rewrite fmap_cons, exec_ops_cons. simpl. rewrite IH. done.
Qed.

Lemma GoMap1Chan_run_requests reqs : ∀ m tail,
  GoMap1Chan.run m ((GoMap1Chan_request <$> reqs) ++ tail)
    = {| run_m := run_m (GoMap1Chan.run (exec_ops m reqs) tail);
         run_replies := replies_to m reqs
                          ++ run_replies (GoMap1Chan.run (exec_ops m reqs) tail);
         run_status := run_status (GoMap1Chan.run (exec_ops m reqs) tail) |}.
Proof.
  induction reqs as [|[c [key|key value]] reqs IH]; intros m tail.
  - simpl. by destruct (GoMap1Chan.run m tail).
  - rewrite fmap_cons, exec_ops_cons. simpl.
    destruct (map_index m key) as [value ok] eqn:Hk. rewrite IH.
    unfold add_reply, replies_to. simpl. by rewrite ?Hk.
  - rewrite fmap_cons, exec_ops_cons. simpl. rewrite IH. done.
Qed.

(** ** The type switch of the single-channel worker *)

Lemma switch_request m i :
  is_request i = true → ∃ m1 reply, GoMap1Chan.switch m i = next_iter m1 reply.
Proof.
  destruct i; simpl; try done; intros _.
  - destruct (map_index m key). eauto.
  - eauto.
Qed.

Lemma switch_not_request m i :
  is_request i = false →
  GoMap1Chan.switch m i = loop_panic "Unknown type on GoMap1Chan in".
Proof. by destruct i. Qed.

Lemma run_requests_no_panic inputs :
  ∀ m, forallb is_request_recv inputs = true →
       ∀ msg, run_status (GoMap1Chan.run m inputs) ≠ run_panicked msg.
Proof.
  induction inputs as [|i inputs IH]; intros m Hall msg; [done|].
  simpl in Hall. apply andb_true_iff in Hall as [Hi Hall]. simpl.
  destruct i as [i|]; simpl; [|done].
  destruct (switch_request m i Hi) as (m1 & reply & ->). simpl. by apply IH.
Qed.

Lemma GoMap1Chan_step_not_crashed sys sys' :
  GoMap1Chan_step sys sys' → ∀ msg, w sys' ≠ crashed msg.
Proof.
  intros Hstep msg. inversion Hstep; subst; simpl; try done.
  destruct (map_index m key); done.
Qed.

(** C7: the worker of [GoMap1Chan] dispatches on the type of what it
    receives. A turn of its loop for a [mapGet] sends the value and the
    [ok] of the map lookup on the request's channel and keeps the map;
    for a [mapSet] it stores the value under the key; for anything else
    it panics. So [run], given requests as [Get] and [Set] make them,
    sends one reply per read request, in order, each with the lookup in
    the map its write requests have made so far, ends with the map
    after all the write requests, and is then waiting for the next
    request, or has signalled [done] if it found the channel closed; it
    never reaches the panic as long as only such requests arrive,
    whether it is fed a list of them or is serving callers of [Get] and
    [Set]. Given a value of another type after the requests, [run]
    panics at that value, having served the requests before it. *)
Theorem C7_switch_dispatch m inputs (reqs : list (chan * op)) i rest :
  (∀ key out,
     GoMap1Chan.switch m (mapGet_iface key out)
       = next_iter m (Some (out, {| mapResult_value := (map_index m key).1;
                                    mapResult_ok := (map_index m key).2 |}))) ∧
  (∀ key value,
     GoMap1Chan.switch m (mapSet_iface key value) = next_iter (<[key := value]> m) None) ∧
  (∀ i, is_request i = false →
        GoMap1Chan.switch m i = loop_panic "Unknown type on GoMap1Chan in") ∧
  (∀ r, is_request (box_mapGet r) = true) ∧
  (∀ r, is_request (box_mapSet r) = true) ∧
  GoMap1Chan.run m (GoMap1Chan_request <$> reqs)
    = {| run_m := exec_ops m reqs; run_replies := replies_to m reqs;
         run_status := at_receive |} ∧
  GoMap1Chan.run m ((GoMap1Chan_request <$> reqs) ++ chan_closed :: rest)
    = {| run_m := exec_ops m reqs; run_replies := replies_to m reqs;
         run_status := done_sent |} ∧
  (is_request i = false →
   GoMap1Chan.run m ((GoMap1Chan_request <$> reqs) ++ received i :: rest)
     = {| run_m := exec_ops m reqs; run_replies := replies_to m reqs;
          run_status := run_panicked "Unknown type on GoMap1Chan in" |}) ∧
  (forallb is_request_recv inputs = true →
   ∀ msg, run_status (GoMap1Chan.run m inputs) ≠ run_panicked msg) ∧
  (∀ sys sys', GoMap1Chan_step sys sys' → ∀ msg, w sys' ≠ crashed msg).
Proof.
  split; [|split; [|split; [|split; [|split; [|split; [|split; [|split; [|split]]]]]]]].
  - intros key out. simpl. by destruct (map_index m key).
  - done.
  - apply switch_not_request.
  - done.
  - done.
  - rewrite <- (app_nil_r (GoMap1Chan_request <$> reqs)), GoMap1Chan_run_requests.
    simpl. by rewrite app_nil_r.
  - rewrite GoMap1Chan_run_requests. simpl. by rewrite app_nil_r.
  - intros Hi. rewrite GoMap1Chan_run_requests. simpl.
    rewrite switch_not_request by done. simpl. by rewrite app_nil_r.
  - apply run_requests_no_panic.
  - apply GoMap1Chan_step_not_crashed.
Qed.

Lemma C7_switch_dispatch_witness :
  let reqs := [(O, op_set "a" (int_iface 1)); (2%nat, op_get "a"); (3%nat, op_get "b")] in
  let inputs := [received (mapSet_iface "a" (int_iface 1));
                 received (mapGet_iface "a" 0%nat);
                 chan_closed] in
  (is_request (string_iface "x") = false ∧
   GoMap1Chan.run ∅ ((GoMap1Chan_request <$> reqs)
                     ++ received (string_iface "x") :: [received (mapGet_iface "a" 4%nat)])
     = {| run_m := <["a" := int_iface 1]> ∅;
          run_replies :=
            [(2%nat, {| mapResult_value := int_iface 1; mapResult_ok := true |});
             (3%nat, {| mapResult_value := nil_iface; mapResult_ok := false |})];
          run_status := run_panicked "Unknown type on GoMap1Chan in" |}) ∧
  (forallb is_request_recv inputs = true ∧
   ∀ msg, run_status (GoMap1Chan.run ∅ inputs) ≠ run_panicked msg).
Proof.
  intros reqs inputs.
  pose proof (C7_switch_dispatch ∅ inputs reqs (string_iface "x")
                [received (mapGet_iface "a" 4%nat)])
    as (_ & _ & _ & _ & _ & _ & _ & Hbad & Hok & _).
  split.
  - split; [reflexivity|]. exact (Hbad eq_refl).
  - split; [reflexivity|]. exact (Hok eq_refl).
Defined.

(** ** Several callers: the worker puts the calls in one order *)

Section ActorFacts.

Variable Msg : Type.
Variable body : gmap string iface → Msg → loop_step.
Variable get_msg : mapGet → Msg.
Variable set_msg : mapSet → Msg.

(** What the loop body does with the two requests. *)
Hypothesis body_get : ∀ m r,
  body m (get_msg r)
    = next_iter m (Some (mapGet_out r,
                         {| mapResult_value := (map_index m (mapGet_key r)).1;
                            mapResult_ok := (map_index m (mapGet_key r)).2 |})).
Hypothesis body_set : ∀ m r,
  body m (set_msg r) = next_iter (<[mapSet_key r := mapSet_value r]> m) None.

Local Abbreviation astep := (step Msg body get_msg set_msg).

(** A step keeps worker and callers in step; the map changes only by a
    [Set] that some caller was about to make. *)
Lemma in_step_step sys sys' m :
  in_step sys m → astep sys sys' →
  in_step sys' m ∨
  ∃ i cl key value rest,
    callers sys !! i = Some cl ∧ todo cl = op_set key value :: rest ∧
    in_step sys' (<[key := value]> m).
Proof.
  intros Hin Hstep. unfold in_step in *.
  inversion Hstep as [sys0 m0 i cl key value rest Hw Hi Hpc Htodo
                     |sys0 m0 i cl key rest Hw Hi Hpc Htodo
                     |sys0 m0 c r i cl key rest Hw Hi Hpc Htodo]; subst; simpl.
  - rewrite Hw in Hin. destruct Hin as [-> Hready].
    right. exists i, cl, key, value, rest. rewrite body_set. simpl.
    repeat split; [done..|].
    intros j cl' [(_ & <- & _)|(_ & Hj)]%list_lookup_insert_Some; [done|eauto].
  - rewrite Hw in Hin. destruct Hin as [-> Hready].
    left. rewrite body_get. simpl. split; [done|].
    eexists i, _, key, rest. split.
    { apply list_lookup_insert_eq. by eapply lookup_lt_Some. }
    simpl. repeat split; [done| |].
    + by destruct (map_index m key).
    + intros j cl' Hne Hj. rewrite list_lookup_insert_ne in Hj by done. eauto.
  - rewrite Hw in Hin. destruct Hin as (-> & i0 & cl0 & key0 & rest0 & Hi0 & Hpc0 & Htodo0 & Hr & Hothers).
    left. split; [done|].
    intros j cl' [(_ & <- & _)|(Hij & Hj)]%list_lookup_insert_Some; [done|].
    destruct (decide (j = i0)) as [->|Hne]; [|eauto].
    specialize (Hothers i cl Hij Hi). congruence.
Qed.

(** No deadlock: while some caller has calls left, the system can move. *)
Lemma in_step_progress sys m i cl :
  in_step sys m → callers sys !! i = Some cl → todo cl ≠ [] →
  ∃ sys', astep sys sys'.
Proof.
  unfold in_step. intros Hin Hi Htodo.
  destruct (w sys) as [m'|m' c r| |] eqn:Hw; [| |done..].
  - destruct Hin as [-> Hready].
    destruct (todo cl) as [|[key|key value] rest] eqn:Hcl; [done| |].
    + eexists. exact (step_Get_send _ _ _ _ sys m i cl key rest Hw Hi (Hready i cl Hi) Hcl).
    + eexists. exact (step_Set _ _ _ _ sys m i cl key value rest Hw Hi (Hready i cl Hi) Hcl).
  - destruct Hin as (-> & i0 & cl0 & key0 & rest0 & Hi0 & Hpc0 & Htodo0 & _).
    eexists. exact (step_Get_reply _ _ _ _ sys m c r i0 cl0 key0 rest0 Hw Hi0 Hpc0 Htodo0).
Qed.

(** While only [Get]s are left the map stays, and every result is a
    lookup in it. *)
Lemma getters_step sys sys' m :
  only_gets sys → in_step sys m → gots_from sys m → astep sys sys' →
  only_gets sys' ∧ in_step sys' m ∧ gots_from sys' m.
Proof.
  intros Hgets Hin Hgot Hstep.
  assert (in_step sys' m) as Hin'.
  { destruct (in_step_step _ _ _ Hin Hstep)
      as [?|(i & cl & key & value & rest & Hi & Htodo & _)]; [done|].
    specialize (Hgets i cl Hi). by rewrite Htodo in Hgets. }
  split; [|split; [done|]].
  - inversion Hstep as [sys0 m0 i cl key value rest Hw Hi Hpc Htodo
                       |sys0 m0 i cl key rest Hw Hi Hpc Htodo
                       |sys0 m0 c r i cl key rest Hw Hi Hpc Htodo]; subst;
      intros j cl' [(_ & <- & _)|(_ & Hj)]%list_lookup_insert_Some; simpl;
      try (by eapply Hgets);
      specialize (Hgets i cl Hi); rewrite Htodo in Hgets; simpl in Hgets; done.
  - inversion Hstep as [sys0 m0 i cl key value rest Hw Hi Hpc Htodo
                       |sys0 m0 i cl key rest Hw Hi Hpc Htodo
                       |sys0 m0 c r i cl key rest Hw Hi Hpc Htodo]; subst;
      intros j cl' key' r' [(_ & <- & _)|(_ & Hj)]%list_lookup_insert_Some; simpl;
      try (by eapply Hgot).
    intros [Hold|Hnew%list_elem_of_singleton]%elem_of_app; [by eapply Hgot|].
    injection Hnew as -> ->.
    unfold in_step in Hin. rewrite Hw in Hin.
    destruct Hin as (-> & i0 & cl0 & key0 & rest0 & Hi0 & Hpc0 & Htodo0 & Hr & Hothers).
    destruct (decide (i = i0)) as [->|Hne].
    + rewrite Hi in Hi0. injection Hi0 as <-.
      rewrite Htodo in Htodo0. by injection Htodo0 as <- <-.
    + specialize (Hothers i cl Hne Hi). congruence.
Qed.

Lemma getters_rtc sys sys' m :
  rtc astep sys sys' →
  only_gets sys → in_step sys m → gots_from sys m →
  only_gets sys' ∧ in_step sys' m ∧ gots_from sys' m.
Proof.
  induction 1 as [|sys1 sys2 sys3 Hstep _ IH]; [done|].
  intros Hgets Hin Hgot.
  destruct (getters_step _ _ _ Hgets Hin Hgot Hstep) as (? & ? & ?). by apply IH.
Qed.

Lemma then_getters_init sys m keys :
  w sys = receiving m →
  only_gets (then_getters sys keys) ∧ in_step (then_getters sys keys) m ∧
  gots_from (then_getters sys keys) m.
Proof.
  intros Hw. unfold only_gets, in_step, gots_from, then_getters; simpl.
  rewrite Hw. repeat split.
  - intros j cl (ks & -> & _)%list_lookup_fmap_Some. simpl.
    induction ks; [done|]. done.
  - by intros j cl (ks & -> & _)%list_lookup_fmap_Some.
  - intros j cl key r (ks & -> & _)%list_lookup_fmap_Some. simpl.
    by intros ?%elem_of_nil.
Qed.

Lemma setters_inv_step m n key v1 v2 sys sys' :
  setters_inv m n key v1 v2 sys → astep sys sys' → setters_inv m n key v1 v2 sys'.
Proof.
  intros [Hn Hinv] Hstep. unfold setters_inv.
  inversion Hstep as [sys0 m0 i cl key0 value rest Hw Hi Hpc Htodo
                     |sys0 m0 i cl key0 rest Hw Hi Hpc Htodo
                     |sys0 m0 c r i cl key0 rest Hw Hi Hpc Htodo]; subst; simpl;
    destruct Hinv as [[Hw' Hc]|[[Hw' Hc]|[[Hw' Hc]|[[Hw' Hc]|[Hw' Hc]]]]];
    rewrite Hw' in Hw; rewrite Hc in Hi; rewrite Hc;
    destruct i as [|[|i]]; simplify_eq/=; rewrite ?body_set; simpl;
    (split; [done|]); eauto 10.
Qed.

Lemma setters_inv_rtc m n key v1 v2 sys :
  rtc astep (two_setters m n key v1 v2) sys → setters_inv m n key v1 v2 sys.
Proof.
  intros Hrtc.
  cut (setters_inv m n key v1 v2 (two_setters m n key v1 v2)).
  { induction Hrtc; eauto using setters_inv_step. }
  split; [done|]. by left.
Qed.

(** Both orders are possible. *)
Lemma two_setters_A_then_B m n key v1 v2 :
  rtc astep (two_setters m n key v1 v2)
    {| w := receiving (<[key := v2]> (<[key := v1]> m));
       callers := [start []; start []]; chans := n |}.
Proof.
  eapply rtc_l.
  { eapply (step_Set _ _ _ _ _ m 0%nat (start [op_set key v1])); done. }
  eapply rtc_l; [|apply rtc_refl]. simpl. rewrite body_set. simpl.
  pose proof (step_Set Msg body get_msg set_msg
    {| w := receiving (<[key := v1]> m);
       callers := [start []; start [op_set key v2]]; chans := n |}
    (<[key := v1]> m) 1%nat (start [op_set key v2]) key v2 []
    eq_refl eq_refl eq_refl eq_refl) as Hs.
  simpl in Hs. rewrite body_set in Hs. exact Hs.
Qed.

Lemma two_setters_B_then_A m n key v1 v2 :
  rtc astep (two_setters m n key v1 v2)
    {| w := receiving (<[key := v1]> (<[key := v2]> m));
       callers := [start []; start []]; chans := n |}.
Proof.
  eapply rtc_l.
  { eapply (step_Set _ _ _ _ _ m 1%nat (start [op_set key v2])); done. }
  eapply rtc_l; [|apply rtc_refl]. simpl. rewrite body_set. simpl.
  pose proof (step_Set Msg body get_msg set_msg
    {| w := receiving (<[key := v2]> m);
       callers := [start [op_set key v1]; start []]; chans := n |}
    (<[key := v2]> m) 0%nat (start [op_set key v1]) key v1 []
    eq_refl eq_refl eq_refl eq_refl) as Hs.
  simpl in Hs. rewrite body_set in Hs. exact Hs.
Qed.

(** A caller's [Get] completes with the lookup in the worker's map. *)
Lemma one_getter m n key :
  rtc astep
    {| w := receiving m; callers := [start [op_get key]]; chans := n |}
    {| w := receiving m;
       callers := [{| todo := []; pc := ready; got := [(key, map_index m key)] |}];
       chans := S n |}.
Proof.
  eapply rtc_l.
  { eapply (step_Get_send _ _ _ _ _ m 0%nat (start [op_get key])); done. }
  simpl. rewrite body_get. simpl.
  eapply rtc_l; [|apply rtc_refl].
  pose proof (step_Get_reply Msg body get_msg set_msg
    {| w := replying m n {| mapResult_value := (map_index m key).1;
                            mapResult_ok := (map_index m key).2 |};
       callers := [{| todo := [op_get key]; pc := awaiting n; got := [] |}];
       chans := S n |}
    m n _ 0%nat _ key [] eq_refl eq_refl eq_refl eq_refl) as Hs.
  simpl in Hs. by destruct (map_index m key).
Qed.

(** Two concurrent [Set]s on one key: when both are done the map holds
    one of the two values, and from then on every [Get] of the key, by
    whatever caller, returns that value. *)
Lemma setters_linearized m n key v1 v2 sys :
  rtc astep (two_setters m n key v1 v2) sys → all_done sys →
  ∃ v m',
    (v = v1 ∨ v = v2) ∧ w sys = receiving m' ∧ m' !! key = Some v ∧
    ∀ keys sys', rtc astep (then_getters sys keys) sys' →
      ∀ cl r, cl ∈ callers sys' → (key, r) ∈ got cl → r = (v, true).
Proof.
  intros Hrtc Hdone.
  destruct (setters_inv_rtc _ _ _ _ _ _ Hrtc) as [_ Hinv].
  assert (∃ v m', (v = v1 ∨ v = v2) ∧ w sys = receiving m' ∧ m' !! key = Some v)
    as (v & m' & Hv & Hw & Hm').
  { destruct Hinv as [[Hw' Hc]|[[Hw' Hc]|[[Hw' Hc]|[[Hw' Hc]|[Hw' Hc]]]]].
    - destruct (Hdone (start [op_set key v1])) as [? _]; [|done].
      rewrite Hc. by left.
    - destruct (Hdone (start [op_set key v2])) as [? _]; [|done].
      rewrite Hc. right. by left.
    - destruct (Hdone (start [op_set key v1])) as [? _]; [|done].
      rewrite Hc. by left.
    - exists v2, (<[key := v2]> (<[key := v1]> m)).
      rewrite lookup_insert_eq. eauto.
    - exists v1, (<[key := v1]> (<[key := v2]> m)).
      rewrite lookup_insert_eq. eauto. }
  exists v, m'. repeat split; [done..|].
  intros keys sys' Hrtc' cl r [j Hj]%list_elem_of_lookup Hgot.
  destruct (then_getters_init sys m' keys Hw) as (Hg & Hin & Hgots).
  destruct (getters_rtc _ _ _ Hrtc' Hg Hin Hgots) as (_ & _ & Hgots').
  rewrite (Hgots' j cl key r Hj Hgot). by apply map_index_present.
Qed.

Lemma todo_all_or_some (l : list caller) :
  (∀ i cl, l !! i = Some cl → todo cl = []) ∨
  (∃ i cl, l !! i = Some cl ∧ todo cl ≠ []).
Proof.
  induction l as [|a l [IH|(i & cl & Hi & Hcl)]].
  - left. by intros i cl ?.
  - destruct (todo a) as [|o rest] eqn:Ha.
    + left. intros [|i] cl Hi; simpl in Hi; [by simplify_eq|eauto].
    + right. exists O, a. split; [done|]. by rewrite Ha.
  - right. by exists (S i), cl.
Qed.

(** Either every caller has made all its calls, or the system can move. *)
Lemma in_step_done_or_step sys m :
  in_step sys m → all_done sys ∨ ∃ sys', astep sys sys'.
Proof.
  intros Hin. destruct (todo_all_or_some (callers sys)) as [Hall|(i & cl & Hi & Hcl)].
  - pose proof Hin as Hin0. unfold in_step in Hin.
    destruct (w sys) as [m'|m' c r| |] eqn:Hw; [| |done..].
    + left. destruct Hin as [_ Hready].
      intros cl [i Hi]%list_elem_of_lookup. eauto.
    + destruct Hin as (_ & i & cl & key & rest & Hi & _ & Htodo & _).
      rewrite (Hall i cl Hi) in Htodo. done.
  - right. by eapply in_step_progress.
Qed.

Lemma getters_done_start sys keys m :
  getters_done m keys (then_getters sys keys).
Proof.
  split; [apply length_fmap|].
  intros i cl ks (ks' & -> & Hks')%list_lookup_fmap_Some Hks.
  rewrite Hks in Hks'. injection Hks' as <-. by exists O.
Qed.

Lemma getters_done_step sys sys' m keys :
  in_step sys m → getters_done m keys sys → astep sys sys' →
  getters_done m keys sys'.
Proof.
  intros Hin [Hlen Hd] Hstep. unfold in_step in Hin.
  inversion Hstep as [sys0 m0 i cl key value rest Hw Hi Hpc Htodo
                     |sys0 m0 i cl key rest Hw Hi Hpc Htodo
                     |sys0 m0 c r i cl key rest Hw Hi Hpc Htodo]; subst;
    unfold getters_done; simpl;
    (split; [by rewrite length_insert|]);
    intros j cl' ks [(<- & <- & _)|(_ & Hj)]%list_lookup_insert_Some Hks;
    try (by eapply Hd).
  - destruct (Hd i cl ks Hi Hks) as (d & Ht & _). rewrite Htodo in Ht.
    by destruct (drop d ks).
  - simpl. by eapply Hd.
  - simpl. destruct (Hd i cl ks Hi Hks) as (d & Ht & Hg).
    rewrite Hw in Hin.
    destruct Hin as (-> & i0 & cl0 & key0 & rest0 & Hi0 & Hpc0 & Htodo0 & Hr & Hothers).
    assert (i = i0) as <-.
    { destruct (decide (i = i0)) as [|Hne]; [done|].
      specialize (Hothers i cl Hne Hi). congruence. }
    rewrite Hi in Hi0. injection Hi0 as <-.
    rewrite Htodo in Htodo0. injection Htodo0 as <- <-.
    rewrite Htodo in Ht.
    assert (ks !! d = Some key ∧ rest = op_get <$> drop (S d) ks) as [Hkd ->].
    { destruct (drop d ks) as [|k ks'] eqn:Hdrop; [done|].
      simpl in Ht. injection Ht as -> ->.
      assert (ks !! d = Some k) as Hkd.
      { rewrite <- (Nat.add_0_r d), <- lookup_drop, Hdrop. done. }
      split; [done|]. by rewrite (drop_S _ _ _ Hkd) in Hdrop; injection Hdrop as ->. }
    exists (S d). split; [done|].
    rewrite (take_S_r _ _ _ Hkd), fmap_app, Hg, Hr. done.
Qed.

Lemma getters_done_rtc sys sys' m keys :
  rtc astep sys sys' →
  only_gets sys → in_step sys m → gots_from sys m → getters_done m keys sys →
  in_step sys' m ∧ getters_done m keys sys'.
Proof.
  induction 1 as [|s1 s2 s3 Hstep _ IH]; [done|].
  intros Hgets Hin Hgot Hd.
  destruct (getters_step _ _ _ Hgets Hin Hgot Hstep) as (? & ? & ?).
  apply IH; [done | done | done |].
  exact (getters_done_step _ _ _ _ Hin Hd Hstep).
Qed.

(** When the goroutines of [then_getters] are done, each has got one
    result for each of its keys, in order: the lookup in [m]. *)
Lemma getters_done_all sys m keys :
  getters_done m keys sys → all_done sys →
  callers sys
    = (λ ks, {| todo := []; pc := ready;
                got := (λ k, (k, map_index m k)) <$> ks |}) <$> keys.
Proof.
  intros [Hlen Hd] Hdone. apply list_eq. intros i.
  rewrite list_lookup_fmap.
  destruct (callers sys !! i) as [cl|] eqn:Hi.
  - destruct (lookup_lt_is_Some_2 keys i) as [ks Hks].
    { rewrite <- Hlen. by eapply lookup_lt_Some. }
    rewrite Hks. simpl. f_equal.
    destruct (Hd i cl ks Hi Hks) as (d & Ht & Hg).
    destruct (Hdone cl) as [Htodo Hpc]; [by eapply list_elem_of_lookup_2|].
    rewrite Htodo in Ht. symmetry in Ht. apply fmap_nil_inv in Ht.
    assert (take d ks = ks) as Htake.
    { rewrite <- (take_drop d ks) at 2. by rewrite Ht, app_nil_r. }
    rewrite Htake in Hg. destruct cl; simpl in *. by subst.
  - apply lookup_ge_None_1 in Hi. rewrite Hlen in Hi.
    by rewrite (lookup_ge_None_2 keys i).
Qed.

Lemma two_done m n : all_done {| w := receiving m; callers := [start []; start []];
                                 chans := n |}.
Proof.
  intros cl Hcl. simpl in Hcl.
  apply elem_of_cons in Hcl as [->|Hcl]; [done|].
  apply elem_of_cons in Hcl as [->|Hcl]; [done|].
  by apply elem_of_nil in Hcl.
Qed.

(** From wherever the two [Set]s have got to, both can be completed. *)
Lemma setters_can_finish m n key v1 v2 sys :
  rtc astep (two_setters m n key v1 v2) sys →
  ∃ sys', rtc astep sys sys' ∧ all_done sys'.
Proof.
  intros Hrtc. destruct (setters_inv_rtc _ _ _ _ _ _ Hrtc) as [Hn Hinv].
  destruct sys as [w0 cs0 n0]. simpl in *. subst n0.
  destruct Hinv as [[-> ->]|[[-> ->]|[[-> ->]|[[-> ->]|[-> ->]]]]].
  - eexists. split; [apply two_setters_A_then_B|apply two_done].
  - eexists. split; [|apply (two_done (<[key := v2]> (<[key := v1]> m)))].
    apply rtc_once.
    pose proof (step_Set Msg body get_msg set_msg
      {| w := receiving (<[key := v1]> m);
         callers := [start []; start [op_set key v2]]; chans := n |}
      (<[key := v1]> m) 1%nat (start [op_set key v2]) key v2 []
      eq_refl eq_refl eq_refl eq_refl) as Hs.
    simpl in Hs. rewrite body_set in Hs. exact Hs.
  - eexists. split; [|apply (two_done (<[key := v1]> (<[key := v2]> m)))].
    apply rtc_once.
    pose proof (step_Set Msg body get_msg set_msg
      {| w := receiving (<[key := v2]> m);
         callers := [start [op_set key v1]; start []]; chans := n |}
      (<[key := v2]> m) 0%nat (start [op_set key v1]) key v1 []
      eq_refl eq_refl eq_refl eq_refl) as Hs.
    simpl in Hs. rewrite body_set in Hs. exact Hs.
  - eexists. split; [apply rtc_refl|apply two_done].
  - eexists. split; [apply rtc_refl|apply two_done].
Qed.

(** Two concurrent [Set]s on one key, in full: both calls complete
    under every schedule; when they are done the map holds one of the
    two values; and the [Get]s made from then on are all answered, each
    with the lookup in that map. *)
Lemma setters_linearized_complete m n key v1 v2 sys :
  rtc astep (two_setters m n key v1 v2) sys →
  (∃ sys', rtc astep sys sys' ∧ all_done sys') ∧
  (all_done sys →
   ∃ v m',
     (v = v1 ∨ v = v2) ∧ w sys = receiving m' ∧ m' !! key = Some v ∧
     ∀ keys sys', rtc astep (then_getters sys keys) sys' →
       (∀ cl r, cl ∈ callers sys' → (key, r) ∈ got cl → r = (v, true)) ∧
       (all_done sys' ∨ ∃ sys'', astep sys' sys'') ∧
       (all_done sys' →
        callers sys'
          = (λ ks, {| todo := []; pc := ready;
                      got := (λ k, (k, map_index m' k)) <$> ks |}) <$> keys)).
Proof.
  intros Hrtc. split; [by eapply setters_can_finish|]. intros Hdone.
  destruct (setters_linearized _ _ _ _ _ _ Hrtc Hdone) as (v & m' & Hv & Hw & Hm' & Hgets).
  exists v, m'. split; [done|]. split; [done|]. split; [done|].
  intros keys sys' Hrtc'.
  destruct (then_getters_init sys m' keys Hw) as (Hg & Hin & Hgots).
  destruct (getters_done_rtc _ _ _ _ Hrtc' Hg Hin Hgots (getters_done_start sys keys m'))
    as [Hin' Hd'].
  split; [exact (Hgets keys sys' Hrtc')|]. split.
  - exact (in_step_done_or_step sys' m' Hin').
  - exact (getters_done_all sys' m' keys Hd').
Qed.

End ActorFacts.

Lemma GoMap_body_get m r :
  GoMap.run_body m (GoMap.case_get (received r))
    = next_iter m (Some (mapGet_out r,
                         {| mapResult_value := (map_index m (mapGet_key r)).1;
                            mapResult_ok := (map_index m (mapGet_key r)).2 |})).
Proof. simpl. by destruct (map_index m (mapGet_key r)). Qed.

Lemma GoMap_body_set m r :
  GoMap.run_body m (GoMap.case_set (received r))
    = next_iter (<[mapSet_key r := mapSet_value r]> m) None.
Proof. done. Qed.

Lemma GoMap1Chan_body_get m r :
  GoMap1Chan.run_body m (received (box_mapGet r))
    = next_iter m (Some (mapGet_out r,
                         {| mapResult_value := (map_index m (mapGet_key r)).1;
                            mapResult_ok := (map_index m (mapGet_key r)).2 |})).
Proof. simpl. by destruct (map_index m (mapGet_key r)). Qed.

Lemma GoMap1Chan_body_set m r :
  GoMap1Chan.run_body m (received (box_mapSet r))
    = next_iter (<[mapSet_key r := mapSet_value r]> m) None.
Proof. done. Qed.

(** The two [Set]s can be served in either order, on both stores. *)
Lemma two_setters_either_order m n key v1 v2 :
  let AB := {| w := receiving (<[key := v2]> (<[key := v1]> m));
               callers := [start []; start []]; chans := n |} in
  let BA := {| w := receiving (<[key := v1]> (<[key := v2]> m));
               callers := [start []; start []]; chans := n |} in
  (rtc GoMap_step (two_setters m n key v1 v2) AB ∧
   rtc GoMap_step (two_setters m n key v1 v2) BA) ∧
  (rtc GoMap1Chan_step (two_setters m n key v1 v2) AB ∧
   rtc GoMap1Chan_step (two_setters m n key v1 v2) BA).
Proof.
  repeat split.
  - apply two_setters_A_then_B, GoMap_body_set.
  - apply two_setters_B_then_A, GoMap_body_set.
  - apply two_setters_A_then_B, GoMap1Chan_body_set.
  - apply two_setters_B_then_A, GoMap1Chan_body_set.
Qed.

(** On both stores a caller's [Get] is served and returns the lookup in
    the worker's map. *)
Lemma one_getter_served m n key :
  let before := {| w := receiving m; callers := [start [op_get key]]; chans := n |} in
  let after := {| w := receiving m;
                  callers := [{| todo := []; pc := ready;
                                 got := [(key, map_index m key)] |}];
                  chans := S n |} in
  rtc GoMap_step before after ∧ rtc GoMap1Chan_step before after.
Proof.
  split.
  - apply one_getter, GoMap_body_get.
  - apply one_getter, GoMap1Chan_body_get.
Qed.

(** On both stores worker and callers stay in step, so a system that
    starts in step never deadlocks while a caller has calls left. *)
Lemma actors_deadlock_free sys sys' m i cl :
  (rtc GoMap_step sys sys' ∨ rtc GoMap1Chan_step sys sys') →
  in_step sys m → callers sys' !! i = Some cl → todo cl ≠ [] →
  (∃ sys'', GoMap_step sys' sys'') ∧ (∃ sys'', GoMap1Chan_step sys' sys'').
Proof.
  intros Hrtc Hin Hi Htodo.
  assert (∃ m', in_step sys' m') as [m' Hin'].
  { destruct Hrtc as [Hrtc|Hrtc].
    - revert m Hin. induction Hrtc as [|s1 s2 s3 Hstep _ IH]; intros m Hin; [eauto|].
      destruct (in_step_step _ _ _ _ GoMap_body_get GoMap_body_set _ _ _ Hin Hstep)
        as [?|(? & ? & ? & ? & ? & _ & _ & ?)]; eauto.
    - revert m Hin. induction Hrtc as [|s1 s2 s3 Hstep _ IH]; intros m Hin; [eauto|].
      destruct (in_step_step _ _ _ _ GoMap1Chan_body_get GoMap1Chan_body_set _ _ _ Hin Hstep)
        as [?|(? & ? & ? & ? & ? & _ & _ & ?)]; eauto. }
  split; eapply in_step_progress; eauto.
Qed.

Lemma both_done :
  all_done {| w := receiving (<["k" := int_iface 2]> (<["k" := int_iface 1]> ∅));
              callers := [start []; start []]; chans := O |}.
Proof.
  intros cl Hcl. simpl in Hcl.
  apply elem_of_cons in Hcl as [->|Hcl]; [done|].
  apply elem_of_cons in Hcl as [->|Hcl]; [done|].
  by apply elem_of_nil in Hcl.
Qed.

(** C9: callers A and B call [Set(k, v1)] and [Set(k, v2)] concurrently
    on a [GoMap], or on a [GoMap1Chan]. Under every schedule both calls
    complete. Once both are done the worker's map holds under [k] one
    of [v1] and [v2], and from then on, whatever goroutines call [Get]
    concurrently and on whatever keys, every [Get] is answered (the
    system moves until all are done), each with the lookup in that map,
    so every [Get(k)] returns that one value with [true]: the worker has
    put the two writes in one order, which all later reads see. *)
Theorem C9_concurrent_Sets_linearized m n key v1 v2 sys :
  (rtc GoMap_step (two_setters m n key v1 v2) sys →
   (∃ sys', rtc GoMap_step sys sys' ∧ all_done sys') ∧
   (all_done sys →
    ∃ v m',
      (v = v1 ∨ v = v2) ∧ w sys = receiving m' ∧ m' !! key = Some v ∧
      ∀ keys sys', rtc GoMap_step (then_getters sys keys) sys' →
        (∀ cl r, cl ∈ callers sys' → (key, r) ∈ got cl → r = (v, true)) ∧
        (all_done sys' ∨ ∃ sys'', GoMap_step sys' sys'') ∧
        (all_done sys' →
         callers sys'
           = (λ ks, {| todo := []; pc := ready;
                       got := (λ k, (k, map_index m' k)) <$> ks |}) <$> keys))) ∧
  (rtc GoMap1Chan_step (two_setters m n key v1 v2) sys →
   (∃ sys', rtc GoMap1Chan_step sys sys' ∧ all_done sys') ∧
   (all_done sys →
    ∃ v m',
      (v = v1 ∨ v = v2) ∧ w sys = receiving m' ∧ m' !! key = Some v ∧
      ∀ keys sys', rtc GoMap1Chan_step (then_getters sys keys) sys' →
        (∀ cl r, cl ∈ callers sys' → (key, r) ∈ got cl → r = (v, true)) ∧
        (all_done sys' ∨ ∃ sys'', GoMap1Chan_step sys' sys'') ∧
        (all_done sys' →
         callers sys'
           = (λ ks, {| todo := []; pc := ready;
                       got := (λ k, (k, map_index m' k)) <$> ks |}) <$> keys))).
Proof.
  split.
  - apply setters_linearized_complete; [apply GoMap_body_get | apply GoMap_body_set].
  - apply setters_linearized_complete;
      [apply GoMap1Chan_body_get | apply GoMap1Chan_body_set].
Qed.

Lemma C9_concurrent_Sets_linearized_witness :
  let sys := {| w := receiving (<["k" := int_iface 2]> (<["k" := int_iface 1]> ∅));
                callers := [start []; start []]; chans := O |} in
  (rtc GoMap_step (two_setters ∅ O "k" (int_iface 1) (int_iface 2)) sys ∧
   rtc GoMap1Chan_step (two_setters ∅ O "k" (int_iface 1) (int_iface 2)) sys ∧
   all_done sys) ∧
  (∃ v m',
     (v = int_iface 1 ∨ v = int_iface 2) ∧ w sys = receiving m' ∧
     m' !! "k" = Some v ∧
     ∀ keys sys', rtc GoMap_step (then_getters sys keys) sys' →
       (∀ cl r, cl ∈ callers sys' → ("k", r) ∈ got cl → r = (v, true)) ∧
       (all_done sys' ∨ ∃ sys'', GoMap_step sys' sys'') ∧
       (all_done sys' →
        callers sys'
          = (λ ks, {| todo := []; pc := ready;
                      got := (λ k, (k, map_index m' k)) <$> ks |}) <$> keys)) ∧
  (∃ v m',
     (v = int_iface 1 ∨ v = int_iface 2) ∧ w sys = receiving m' ∧
     m' !! "k" = Some v ∧
     ∀ keys sys', rtc GoMap1Chan_step (then_getters sys keys) sys' →
       (∀ cl r, cl ∈ callers sys' → ("k", r) ∈ got cl → r = (v, true)) ∧
       (all_done sys' ∨ ∃ sys'', GoMap1Chan_step sys' sys'') ∧
       (all_done sys' →
        callers sys'
          = (λ ks, {| todo := []; pc := ready;
                      got := (λ k, (k, map_index m' k)) <$> ks |}) <$> keys)).
Proof.
  intros sys.
  destruct (two_setters_either_order ∅ O "k" (int_iface 1) (int_iface 2))
    as [[HG _] [H1 _]].
  destruct (C9_concurrent_Sets_linearized ∅ O "k" (int_iface 1) (int_iface 2) sys)
    as [CG C1].
  split; [exact (conj HG (conj H1 both_done))|].
  split.
  - exact (proj2 (CG HG) both_done).
  - exact (proj2 (C1 H1) both_done).
Defined.

(** ** One total order of all calls *)

Lemma exec_ops_snoc m tr x : exec_ops m (tr ++ [x]) = exec_op (exec_ops m tr) x.2.
Proof. unfold exec_ops. by rewrite foldl_app. Qed.

Lemma replay_snoc tr : ∀ m i o,
  replay m (tr ++ [(i, o)])
    = replay m tr ++
      match o with
      | op_get key => [(i, (key, map_index (exec_ops m tr) key))]
      | op_set _ _ => []
      end.
Proof.
  induction tr as [|[j [key|key value]] tr IH]; intros m i o; simpl.
  - by destruct o.
  - by rewrite IH.
  - by rewrite IH.
Qed.

Lemma of_caller_snoc {A} i j (x : A) l :
  of_caller i (l ++ [(j, x)])
    = of_caller i l ++ (if decide (j = i) then [x] else []).
Proof.
  unfold of_caller. rewrite filter_app, fmap_app. f_equal.
  rewrite filter_cons. simpl. by destruct (decide (j = i)).
Qed.

Lemma of_caller_snoc_eq {A} i (x : A) l :
  of_caller i (l ++ [(i, x)]) = of_caller i l ++ [x].
Proof. rewrite of_caller_snoc. by rewrite decide_True. Qed.

Lemma of_caller_snoc_ne {A} i j (x : A) l :
  j ≠ i → of_caller i (l ++ [(j, x)]) = of_caller i l.
Proof. intros. rewrite of_caller_snoc, decide_False by done. apply app_nil_r. Qed.

Section ActorOrder.

Variable Msg : Type.
Variable body : gmap string iface → Msg → loop_step.
Variable get_msg : mapGet → Msg.
Variable set_msg : mapSet → Msg.

Hypothesis body_get : ∀ m r,
  body m (get_msg r)
    = next_iter m (Some (mapGet_out r,
                         {| mapResult_value := (map_index m (mapGet_key r)).1;
                            mapResult_ok := (map_index m (mapGet_key r)).2 |})).
Hypothesis body_set : ∀ m r,
  body m (set_msg r) = next_iter (<[mapSet_key r := mapSet_value r]> m) None.

Local Abbreviation astep := (step Msg body get_msg set_msg).

Lemma explains_start m0 n progs :
  explains m0 progs []
    {| w := receiving m0; callers := start <$> progs; chans := n |}.
Proof.
  split.
  - unfold in_step; simpl. split; [done|].
    by intros j cl (p & -> & _)%list_lookup_fmap_Some.
  - intros i cl (p & -> & Hp)%list_lookup_fmap_Some. simpl. by rewrite Hp.
Qed.

(** A request served is put at the end of the order; a reply changes
    nothing in it. *)
Lemma explains_step m0 progs tr sys sys' :
  explains m0 progs tr sys → astep sys sys' →
  ∃ tr', explains m0 progs tr' sys'.
Proof.
  intros [Hin Hcl] Hstep. unfold in_step in Hin.
  inversion Hstep as [sys0 m i cl key value rest Hw Hi Hpc Htodo
                     |sys0 m i cl key rest Hw Hi Hpc Htodo
                     |sys0 m c r i cl key rest Hw Hi Hpc Htodo]; subst;
    rewrite Hw in Hin.
  - destruct Hin as [-> Hready].
    exists (tr ++ [(i, op_set key value)]). split.
    + unfold in_step; simpl. rewrite body_set, exec_ops_snoc. simpl.
      split; [done|].
      intros j cl' [(_ & <- & _)|(_ & Hj)]%list_lookup_insert_Some; [done|eauto].
    + simpl. intros j cl' [(<- & <- & _)|(Hne & Hj)]%list_lookup_insert_Some.
      * simpl. specialize (Hcl i cl Hi). rewrite Hpc in Hcl.
        destruct Hcl as [Hp Hg]. split.
        -- rewrite of_caller_snoc_eq, <- app_assoc. simpl. by rewrite Hp, Htodo.
        -- rewrite replay_snoc, app_nil_r. done.
      * specialize (Hcl j cl' Hj). rewrite (Hready j cl' Hj) in *.
        by rewrite of_caller_snoc_ne, replay_snoc, app_nil_r.
  - destruct Hin as [-> Hready].
    exists (tr ++ [(i, op_get key)]). split.
    + unfold in_step; simpl. rewrite body_get, exec_ops_snoc. simpl.
      split; [done|].
      eexists i, _, key, rest. split.
      { apply list_lookup_insert_eq. by eapply lookup_lt_Some. }
      simpl. repeat split; [done| |].
      * by destruct (map_index (exec_ops m0 tr) key).
      * intros j cl' Hne Hj. rewrite list_lookup_insert_ne in Hj by done. eauto.
    + simpl. intros j cl' [(<- & <- & _)|(Hne & Hj)]%list_lookup_insert_Some.
      * simpl. specialize (Hcl i cl Hi). rewrite Hpc in Hcl.
        destruct Hcl as [Hp Hg]. exists key, rest.
        rewrite of_caller_snoc_eq, <- app_assoc, replay_snoc, exec_ops_snoc.
        simpl. rewrite of_caller_snoc_eq, Hp, Htodo, Hg. done.
      * specialize (Hcl j cl' Hj). rewrite (Hready j cl' Hj) in *.
        rewrite replay_snoc. by rewrite !of_caller_snoc_ne.
  - destruct Hin as (-> & i0 & cl0 & key0 & rest0 & Hi0 & Hpc0 & Htodo0 & Hr & Hothers).
    assert (i = i0) as <-.
    { destruct (decide (i = i0)) as [|Hne]; [done|].
      specialize (Hothers i cl Hne Hi). congruence. }
    rewrite Hi in Hi0. injection Hi0 as <-.
    rewrite Htodo in Htodo0. injection Htodo0 as <- <-.
    exists tr. split.
    + unfold in_step; simpl. split; [done|].
      intros j cl' [(_ & <- & _)|(Hne & Hj)]%list_lookup_insert_Some; [done|eauto].
    + simpl. intros j cl' [(<- & <- & _)|(Hne & Hj)]%list_lookup_insert_Some.
      * simpl. specialize (Hcl i cl Hi). rewrite Hpc in Hcl.
        destruct Hcl as (key' & rest' & Ht & Hp & Hg).
        rewrite Htodo in Ht. injection Ht as <- <-.
        split; [done|]. by rewrite Hg, Hr.
      * by apply Hcl.
Qed.

(** Whatever the callers' programs and however the goroutines are
    scheduled, there is one order of all the calls served so far that
    agrees with each caller's program order and explains the worker's
    map and every result returned. *)
Lemma calls_totally_ordered m0 n progs sys :
  rtc astep {| w := receiving m0; callers := start <$> progs; chans := n |} sys →
  ∃ tr,
    worker_map (w sys) = Some (exec_ops m0 tr) ∧
    ∀ i cl, callers sys !! i = Some cl → pc cl = ready →
      progs !! i = Some (of_caller i tr ++ todo cl) ∧
      got cl = of_caller i (replay m0 tr).
Proof.
  intros Hrtc.
  assert (∃ tr, explains m0 progs tr sys) as [tr [Hin Hcl]].
  { pose proof (explains_start m0 n progs) as H0. revert H0.
    generalize (@nil (nat * op)).
    induction Hrtc as [|s1 s2 s3 Hstep _ IH]; intros tr H0; [eauto|].
    destruct (explains_step _ _ _ _ _ H0 Hstep) as [tr' H']. eauto. }
  exists tr. split.
  - unfold in_step in Hin. destruct (w sys); simpl; try done.
    + by destruct Hin as [-> _].
    + by destruct Hin as [-> _].
  - intros i cl Hi Hpc. specialize (Hcl i cl Hi). by rewrite Hpc in Hcl.
Qed.

End ActorOrder.

(** The same for the two stores of the program. *)
Lemma GoMap_calls_totally_ordered m0 n progs sys :
  (rtc GoMap_step {| w := receiving m0; callers := start <$> progs; chans := n |} sys ∨
   rtc GoMap1Chan_step {| w := receiving m0; callers := start <$> progs; chans := n |} sys) →
  ∃ tr,
    worker_map (w sys) = Some (exec_ops m0 tr) ∧
    ∀ i cl, callers sys !! i = Some cl → pc cl = ready →
      progs !! i = Some (of_caller i tr ++ todo cl) ∧
      got cl = of_caller i (replay m0 tr).
Proof.
  intros [H|H].
  - eapply calls_totally_ordered; [apply GoMap_body_get|apply GoMap_body_set|done].
  - eapply calls_totally_ordered; [apply GoMap1Chan_body_get|apply GoMap1Chan_body_set|done].
Qed.

(** ** One caller in the system and the calls made one after another

    What [apply_ops] computes for a single goroutine is the replay of
    its calls, the order that the system of callers and worker is
    explained by. *)

Lemma GoMap_apply_ops_replay ops : ∀ g,
  GoMap.closed g = false → GoMap.worker g = running →
  (apply_ops g ops).1
    = (λ x, Returned x.2.2) <$> replay (GoMap.m g) ((λ o, (O, o)) <$> ops) ∧
  GoMap.m (apply_ops g ops).2 = exec_ops (GoMap.m g) ((λ o, (O, o)) <$> ops).
Proof.
  induction ops as [|[key|key value] ops IH]; intros g Hc Hw; [done| |].
  - simpl. change (@Get GoMap.t _ g key) with (GoMap.Get g key).
    rewrite GoMap_Get_unfold by done.
    destruct (IH {| GoMap.m := GoMap.m g; GoMap.made := S (GoMap.made g);
                    GoMap.closed := false; GoMap.worker := running |}
                eq_refl eq_refl) as [Hr Hm].
    destruct (apply_ops _ ops) as [rs g2]. simpl in *. by rewrite Hr, Hm.
  - simpl. change (@Set_ GoMap.t _ g key value) with (GoMap.Set_ g key value).
    rewrite GoMap_Set_unfold by done.
    by destruct (IH {| GoMap.m := <[key := value]> (GoMap.m g);
                       GoMap.made := GoMap.made g;
                       GoMap.closed := false; GoMap.worker := running |}
                   eq_refl eq_refl).
Qed.

Lemma GoMap1Chan_apply_ops_replay ops : ∀ g,
  GoMap1Chan.closed g = false → GoMap1Chan.worker g = running →
  (apply_ops g ops).1
    = (λ x, Returned x.2.2) <$> replay (GoMap1Chan.m g) ((λ o, (O, o)) <$> ops) ∧
  GoMap1Chan.m (apply_ops g ops).2
    = exec_ops (GoMap1Chan.m g) ((λ o, (O, o)) <$> ops).
Proof.
  induction ops as [|[key|key value] ops IH]; intros g Hc Hw; [done| |].
  - simpl. change (@Get GoMap1Chan.t _ g key) with (GoMap1Chan.Get g key).
    rewrite GoMap1Chan_Get_unfold by done.
    destruct (IH {| GoMap1Chan.m := GoMap1Chan.m g;
                    GoMap1Chan.made := S (GoMap1Chan.made g);
                    GoMap1Chan.closed := false; GoMap1Chan.worker := running |}
                eq_refl eq_refl) as [Hr Hm].
    destruct (apply_ops _ ops) as [rs g2]. simpl in *. by rewrite Hr, Hm.
  - simpl. change (@Set_ GoMap1Chan.t _ g key value) with (GoMap1Chan.Set_ g key value).
    rewrite GoMap1Chan_Set_unfold by done.
    by destruct (IH {| GoMap1Chan.m := <[key := value]> (GoMap1Chan.m g);
                       GoMap1Chan.made := GoMap1Chan.made g;
                       GoMap1Chan.closed := false; GoMap1Chan.worker := running |}
                   eq_refl eq_refl).
Qed.

(** * Further properties of the code *)

(** ** The slice: bounds, building, iterating, waiting *)

Lemma index_expr_past_end arr index :
  len arr <= index →
  index_expr arr index = Panicked "runtime error: index out of range".
Proof.
  intros H. unfold index_expr. destruct (index <? 0); [done|].
  rewrite lookup_ge_None_2; [done|]. unfold len in H. lia.
Qed.

Lemma index_expr_negative_msg arr index :
  index < 0 → index_expr arr index = Panicked "runtime error: index out of range".
Proof. intros H. unfold index_expr. by destruct (Z.ltb_spec index 0); [|lia]. Qed.

(** X1: the [Get] that indexes without a test, on a slice whose lock is
    free, returns the element for an index from 0 up to the length and
    panics with an index-out-of-range error for every other index,
    negative or past the end; the slice is as before in both cases (the
    deferred [Unlock] runs). *)
Theorem X1_Unchecked_Get_bounds cs index :
  mu cs = unlocked →
  (0 <= index < len (items cs) →
     ∃ v, items cs !! Z.to_nat index = Some v ∧
          Unchecked.Get cs index = (Returned v, cs)) ∧
  (index < 0 ∨ len (items cs) <= index →
     Unchecked.Get cs index = (Panicked "runtime error: index out of range", cs)).
Proof.
  intros Hmu. rewrite Unchecked_Get_unfold by done. split.
  - intros [H0 Hlt].
    destruct (lookup_lt_is_Some_2 (items cs) (Z.to_nat index)) as [v Hv].
    { unfold len in Hlt. lia. }
    exists v. split; [done|]. by rewrite (index_expr_in_range _ _ v).
  - intros [Hneg|Hge].
    + by rewrite index_expr_negative_msg.
    + by rewrite index_expr_past_end.
Qed.

Lemma X1_Unchecked_Get_bounds_witness :
  (0 <= 1 < len [int_iface 4; int_iface 5] →
     ∃ v, [int_iface 4; int_iface 5] !! Z.to_nat 1 = Some v ∧
          Unchecked.Get {| mu := unlocked; items := [int_iface 4; int_iface 5] |} 1
            = (Returned v, {| mu := unlocked; items := [int_iface 4; int_iface 5] |})) ∧
  (1 < 0 ∨ len [int_iface 4; int_iface 5] <= 1 →
     Unchecked.Get {| mu := unlocked; items := [int_iface 4; int_iface 5] |} 1
       = (Panicked "runtime error: index out of range",
          {| mu := unlocked; items := [int_iface 4; int_iface 5] |})).
Proof.
  apply (X1_Unchecked_Get_bounds
           {| mu := unlocked; items := [int_iface 4; int_iface 5] |} 1).
  reflexivity.
Defined.

(** X2: on a slice whose lock is free the two versions of [Get] give
    the same outcome exactly for the indices below the length: the
    stored element from 0 on, the same panic for a negative index. From
    the length on they differ: [nil] from the version with the test, a
    panic from the other. *)
Theorem X2_Get_versions_agree_below_len cs index :
  mu cs = unlocked →
  ((Checked.Get cs index).1 = (Unchecked.Get cs index).1 ↔ index < len (items cs)).
Proof.
  intros Hmu.
  assert (writer (mu cs) = false) as Hw by (by rewrite Hmu).
  rewrite Checked_Get_unfold, Unchecked_Get_unfold by done. simpl.
  destruct (Z.lt_ge_cases index (len (items cs))) as [Hlt|Hge].
  - pose proof Hlt as Hi. apply isset_true in Hi. by rewrite Hi.
  - pose proof Hge as Hi. apply isset_false in Hi. rewrite Hi.
    rewrite index_expr_past_end by done. split; [done|lia].
Qed.

Lemma X2_Get_versions_agree_below_len_witness :
  (Checked.Get {| mu := unlocked; items := [int_iface 4] |} 0).1
    = (Unchecked.Get {| mu := unlocked; items := [int_iface 4] |} 0).1
  ↔ 0 < len [int_iface 4].
Proof.
  apply (X2_Get_versions_agree_below_len {| mu := unlocked; items := [int_iface 4] |} 0).
  reflexivity.
Defined.

Lemma Append_all_items vs : ∀ cs,
  mu cs = unlocked →
  mu (Append_all cs vs) = unlocked ∧ items (Append_all cs vs) = items cs ++ vs.
Proof.
  induction vs as [|v vs IH]; intros cs Hmu; simpl.
  - by rewrite app_nil_r.
  - rewrite Append_unfold by done. simpl.
    destruct (IH {| mu := unlocked; items := items cs ++ [v] |} eq_refl) as [? ->].
    simpl. by rewrite <- app_assoc.
Qed.

(** X3: a slice built from [NewConcurrentSlice] by one [Append] per
    value holds exactly those values in the order of the calls: [Get]
    (either version) at position [i] returns the [i]-th value appended,
    [Get] from the number of values on returns [nil], and [Iter] sends
    the values with their positions and closes the channel. The empty
    list of calls is the new slice itself. *)
Theorem X3_Append_all_then_read vs :
  let cs := Append_all NewConcurrentSlice vs in
  items cs = vs ∧ mu cs = unlocked ∧
  (∀ i v, vs !! i = Some v →
     Checked.Get cs (Z.of_nat i) = (Returned v, cs) ∧
     Unchecked.Get cs (Z.of_nat i) = (Returned v, cs)) ∧
  (∀ index, len vs <= index → Checked.Get cs index = (Returned nil_iface, cs)) ∧
  ∃ its,
    Checked.Iter_f cs = (Returned ((send <$> its) ++ [close]), cs) ∧
    drain ((send <$> its) ++ [close]) = (its, true) ∧
    length its = length vs ∧
    ∀ i v, vs !! i = Some v → its !! i = Some {| Index := Z.of_nat i; Value := v |}.
Proof.
  intros cs. destruct (Append_all_items vs NewConcurrentSlice eq_refl) as [Hmu Hit].
  fold cs in Hmu, Hit. simpl in Hit.
  assert (writer (mu cs) = false) as Hw by (by rewrite Hmu).
  split; [done|]. split; [done|]. split; [|split].
  - intros i v Hv. split.
    + apply Get_in_range; [done|lia|]. by rewrite Nat2Z.id, Hit.
    + rewrite Unchecked_Get_unfold by done.
      rewrite (index_expr_in_range _ _ v); [done|lia|]. by rewrite Nat2Z.id, Hit.
  - intros index Hlen. apply Get_past_end; [done|]. by rewrite Hit.
  - destruct (drain_range_send (items cs) 0) as (its & Hsend & Hdrain & Hlen & Hlook).
    exists its. rewrite <- Hsend. rewrite Hit in *. repeat split; try done.
    unfold Checked.Iter_f. destruct (RLock_free _ Hw) as [mu1 Hmu1].
    rewrite Hmu1, (deferred_RUnlock _ _ _ Hmu1), Hit. f_equal.
    rewrite <- Hit. apply ConcurrentSlice_eta.
Qed.

Lemma range_send_app arr1 arr2 : ∀ index,
  range_send index (arr1 ++ arr2)
    = range_send index arr1 ++ range_send (index + len arr1) arr2.
Proof.
  induction arr1 as [|v arr1 IH]; intros index; simpl.
  - unfold len; simpl. by rewrite Z.add_0_r.
  - rewrite IH. do 3 f_equal. unfold len; simpl. lia.
Qed.

(** X4: an [Iter] started after an [Append] sends what an [Iter] started
    before it sends, followed by the appended value with the old length
    as its index. *)
Theorem X4_Iter_after_Append cs v :
  mu cs = unlocked →
  ∃ its,
    (Checked.Iter_f cs).1 = Returned ((send <$> its) ++ [close]) ∧
    (Checked.Iter_f (Append cs v).2).1
      = Returned ((send <$> its ++ [{| Index := len (items cs); Value := v |}])
                  ++ [close]) ∧
    (Unchecked.Iter_f (Append cs v).2).1 = (Checked.Iter_f (Append cs v).2).1.
Proof.
  intros Hmu.
  destruct (drain_range_send (items cs) 0) as (its & Hsend & _).
  exists its. rewrite Append_unfold by done.
  unfold Checked.Iter_f, Unchecked.Iter_f. rewrite Hmu. simpl.
  rewrite range_send_app, Hsend, fmap_app. simpl. done.
Qed.

Lemma X4_Iter_after_Append_witness :
  ∃ its,
    (Checked.Iter_f {| mu := unlocked; items := [int_iface 4] |}).1
      = Returned ((send <$> its) ++ [close]) ∧
    (Checked.Iter_f (Append {| mu := unlocked; items := [int_iface 4] |} (int_iface 5)).2).1
      = Returned ((send <$> its ++ [{| Index := len [int_iface 4]; Value := int_iface 5 |}])
                  ++ [close]) ∧
    (Unchecked.Iter_f (Append {| mu := unlocked; items := [int_iface 4] |} (int_iface 5)).2).1
      = (Checked.Iter_f (Append {| mu := unlocked; items := [int_iface 4] |} (int_iface 5)).2).1.
Proof.
  apply (X4_Iter_after_Append {| mu := unlocked; items := [int_iface 4] |} (int_iface 5)).
  reflexivity.
Defined.



(** ** The stores' life and the workers' loop *)

(** X6: [Stop] on a [GoMap] or a [GoMap1Chan] whose worker is running
    returns and leaves the map as it is. After it a [Get] and a [Set]
    panic with a send on a closed channel, and a second [Stop] panics
    with the close of a closed channel; none of them changes the map. *)
Theorem X6_Stop_then_use g g1 key value :
  GoMap.closed g = false → GoMap.worker g = running →
  GoMap1Chan.closed g1 = false → GoMap1Chan.worker g1 = running →
  ((GoMap.Stop g).1 = Returned tt ∧
   GoMap.m (GoMap.Stop g).2 = GoMap.m g ∧
   (GoMap.Get (GoMap.Stop g).2 key).1 = Panicked "send on closed channel" ∧
   (GoMap.Set_ (GoMap.Stop g).2 key value).1 = Panicked "send on closed channel" ∧
   (GoMap.Stop (GoMap.Stop g).2).1 = Panicked "close of closed channel" ∧
   GoMap.m (GoMap.Set_ (GoMap.Stop g).2 key value).2 = GoMap.m g) ∧
  ((GoMap1Chan.Stop g1).1 = Returned tt ∧
   GoMap1Chan.m (GoMap1Chan.Stop g1).2 = GoMap1Chan.m g1 ∧
   (GoMap1Chan.Get (GoMap1Chan.Stop g1).2 key).1 = Panicked "send on closed channel" ∧
   (GoMap1Chan.Set_ (GoMap1Chan.Stop g1).2 key value).1
     = Panicked "send on closed channel" ∧
   (GoMap1Chan.Stop (GoMap1Chan.Stop g1).2).1 = Panicked "close of closed channel" ∧
   GoMap1Chan.m (GoMap1Chan.Set_ (GoMap1Chan.Stop g1).2 key value).2 = GoMap1Chan.m g1).
Proof.
  intros Hc Hw Hc1 Hw1.
  unfold GoMap.Stop, GoMap1Chan.Stop. rewrite Hc, Hw, Hc1, Hw1. simpl. done.
Qed.

Lemma X6_Stop_then_use_witness :
  (GoMap.Stop GoMap.NewGoMap).1 = Returned tt ∧
  (GoMap.Get (GoMap.Stop GoMap.NewGoMap).2 "7").1 = Panicked "send on closed channel" ∧
  (GoMap1Chan.Stop (GoMap1Chan.Stop GoMap1Chan.NewGoMap1Chan).2).1
    = Panicked "close of closed channel".
Proof.
  pose proof (X6_Stop_then_use GoMap.NewGoMap GoMap1Chan.NewGoMap1Chan "7" nil_iface
                eq_refl eq_refl eq_refl eq_refl) as [(H1 & _ & H2 & _) (_ & _ & _ & _ & H3 & _)].
  exact (conj H1 (conj H2 H3)).
Defined.

(** X7: a worker serves the requests in the order in which it receives
    them. After the requests [reqs] its map is the map after their
    [Set]s in that order and it has sent one reply per [Get], in order,
    on the channel of the request, with the lookup in the map as it was
    at that point; it is then waiting for the next request. When it
    finds a channel closed (either channel for the two-channel worker)
    it signals [done] and serves nothing that comes after. *)
Theorem X7_run_serves_in_order m (reqs : list (chan * op)) rest rest1 :
  GoMap.run m (GoMap_request <$> reqs)
    = {| run_m := exec_ops m reqs; run_replies := replies_to m reqs;
         run_status := at_receive |} ∧
  GoMap.run m ((GoMap_request <$> reqs) ++ GoMap.case_get chan_closed :: rest)
    = {| run_m := exec_ops m reqs; run_replies := replies_to m reqs;
         run_status := done_sent |} ∧
  GoMap.run m ((GoMap_request <$> reqs) ++ GoMap.case_set chan_closed :: rest)
    = {| run_m := exec_ops m reqs; run_replies := replies_to m reqs;
         run_status := done_sent |} ∧
  GoMap1Chan.run m (GoMap1Chan_request <$> reqs)
    = {| run_m := exec_ops m reqs; run_replies := replies_to m reqs;
         run_status := at_receive |} ∧
  GoMap1Chan.run m ((GoMap1Chan_request <$> reqs) ++ chan_closed :: rest1)
    = {| run_m := exec_ops m reqs; run_replies := replies_to m reqs;
         run_status := done_sent |}.
Proof.
  split; [|split; [|split; [|split]]].
  - rewrite <- (app_nil_r (GoMap_request <$> reqs)), GoMap_run_requests.
    simpl. by rewrite app_nil_r.
  - rewrite GoMap_run_requests. simpl. by rewrite app_nil_r.
  - rewrite GoMap_run_requests. simpl. by rewrite app_nil_r.
  - rewrite <- (app_nil_r (GoMap1Chan_request <$> reqs)), GoMap1Chan_run_requests.
    simpl. by rewrite app_nil_r.
  - rewrite GoMap1Chan_run_requests. simpl. by rewrite app_nil_r.
Qed.

(** X8: when a value that is neither a [mapGet] nor a [mapSet] arrives
    on the channel of a [GoMap1Chan], the worker panics there: the
    requests before it have been served and answered, nothing after it
    is. *)
Theorem X8_run_panics_at_unknown_value m reqs i rest :
  is_request i = false →
  GoMap1Chan.run m ((GoMap1Chan_request <$> reqs) ++ received i :: rest)
    = {| run_m := exec_ops m reqs; run_replies := replies_to m reqs;
         run_status := run_panicked "Unknown type on GoMap1Chan in" |}.
Proof.
  intros Hi. rewrite GoMap1Chan_run_requests. simpl.
  rewrite switch_not_request by done. simpl. by rewrite app_nil_r.
Qed.

Lemma X8_run_panics_at_unknown_value_witness :
  is_request (string_iface "x") = false ∧
  GoMap1Chan.run ∅ ((GoMap1Chan_request <$> [(O, op_set "a" (int_iface 1)); (2%nat, op_get "a")])
                    ++ received (string_iface "x") :: [received (mapGet_iface "a" 3%nat)])
    = {| run_m := exec_ops ∅ [(O, op_set "a" (int_iface 1)); (2%nat, op_get "a")];
         run_replies := replies_to ∅ [(O, op_set "a" (int_iface 1)); (2%nat, op_get "a")];
         run_status := run_panicked "Unknown type on GoMap1Chan in" |}.
Proof.
  split; [reflexivity|].
  apply (X8_run_panics_at_unknown_value ∅
           [(O, op_set "a" (int_iface 1)); (2%nat, op_get "a")]
           (string_iface "x") [received (mapGet_iface "a" 3%nat)]).
  reflexivity.
Defined.

(** ** One caller: the three stores are one map *)

Lemma differs_the_value key : differs (the_value key) (string_iface (the_value key)) = false.
Proof. simpl. by rewrite String.eqb_refl. Qed.

Lemma exec_ops_TheTest_calls rnd n i m :
  exec_ops m ((λ o, (O, o)) <$> TheTest_calls rnd (S n) i)
    = exec_ops (<[Itoa (rnd i) := string_iface (the_value (Itoa (rnd i)))]> m)
               ((λ o, (O, o)) <$> TheTest_calls rnd n (S i)).
Proof. done. Qed.

(** After the calls of [TheTest] a key holds its test value if it held
    it before or was drawn, and what it held before if it was not
    drawn. *)
Lemma TheTest_calls_drawn rnd n : ∀ i m key,
  (m !! key = Some (string_iface (the_value key)) ∨
   ∃ j, (i ≤ j < i + n)%nat ∧ key = Itoa (rnd j)) →
  exec_ops m ((λ o, (O, o)) <$> TheTest_calls rnd n i) !! key
    = Some (string_iface (the_value key)).
Proof.
  induction n as [|n IH]; intros i m key Hkey.
  - destruct Hkey as [?|(j & ? & _)]; [done|lia].
  - rewrite exec_ops_TheTest_calls. apply IH.
    destruct (decide (key = Itoa (rnd i))) as [->|Hne].
    + left. apply lookup_insert_eq.
    + destruct Hkey as [Hm|(j & Hj & ->)].
      * left. by rewrite lookup_insert_ne.
      * right. exists j. split; [|done].
        destruct (decide (j = i)) as [->|]; [done|lia].
Qed.

Lemma TheTest_calls_not_drawn rnd n : ∀ i m key,
  (∀ j, (i ≤ j < i + n)%nat → key ≠ Itoa (rnd j)) →
  exec_ops m ((λ o, (O, o)) <$> TheTest_calls rnd n i) !! key = m !! key.
Proof.
  induction n as [|n IH]; intros i m key Hkey; [done|].
  rewrite exec_ops_TheTest_calls, IH.
  - rewrite lookup_insert_ne; [done|]. intros <-. by apply (Hkey i); [lia|].
  - intros j Hj. apply Hkey. lia.
Qed.

Section OneCaller.

Context {T : Type} `{Map T}.

(** [holds g m]: the store [g] can be used (its lock is free, its worker
    is running) and its map is [m]. *)
Variable holds : T → gmap string iface → Prop.

Hypothesis Get_holds : ∀ g m key,
  holds g m → ∃ g', Get g key = (Returned (map_index m key), g') ∧ holds g' m.
Hypothesis Set_holds : ∀ g m key value,
  holds g m → ∃ g', Set_ g key value = (Returned tt, g') ∧ holds g' (<[key := value]> m).

Lemma apply_ops_holds ops : ∀ g m,
  holds g m →
  (apply_ops g ops).1
    = (λ x, Returned x.2.2) <$> replay m ((λ o, (O, o)) <$> ops) ∧
  holds (apply_ops g ops).2 (exec_ops m ((λ o, (O, o)) <$> ops)).
Proof.
  induction ops as [|[key|key value] ops IH]; intros g m Hg; [done| |].
  - simpl. destruct (Get_holds g m key Hg) as (g' & -> & Hg').
    destruct (IH g' m Hg') as [Hr Hm].
    destruct (apply_ops g' ops) as [rs g2]. simpl in *. by rewrite Hr.
  - simpl. destruct (Set_holds g m key value Hg) as (g' & -> & Hg').
    by destruct (IH g' (<[key := value]> m) Hg').
Qed.

Lemma calls_holds ops : ∀ g m,
  holds g m →
  (calls g ops).1
    = Returned ((λ x, x.2.2) <$> replay m ((λ o, (O, o)) <$> ops)) ∧
  holds (calls g ops).2 (exec_ops m ((λ o, (O, o)) <$> ops)).
Proof.
  induction ops as [|[key|key value] ops IH]; intros g m Hg; [done| |].
  - simpl. destruct (Get_holds g m key Hg) as (g' & -> & Hg').
    destruct (IH g' m Hg') as [Hr Hm].
    destruct (calls g' ops) as [rs g2]. simpl in *. by rewrite Hr.
  - simpl. destruct (Set_holds g m key value Hg) as (g' & -> & Hg').
    by destruct (IH g' (<[key := value]> m) Hg').
Qed.

Lemma TheTest_loop_holds Sprint rnd n : ∀ i g m,
  holds g m →
  ∃ g', TheTest_loop Sprint n i rnd g = (Returned tt, g') ∧
        g' = (apply_ops g (TheTest_calls rnd n i)).2 ∧
        holds g' (exec_ops m ((λ o, (O, o)) <$> TheTest_calls rnd n i)).
Proof.
  induction n as [|n IH]; intros i g m Hg; [by exists g|].
  simpl.
  destruct (Set_holds g m (Itoa (rnd i)) (string_iface (the_value (Itoa (rnd i)))) Hg)
    as (g1 & -> & Hg1).
  destruct (Get_holds g1 _ (Itoa (rnd i)) Hg1) as (g2 & -> & Hg2).
  rewrite map_index_insert, differs_the_value.
  destruct (IH (S i) g2 _ Hg2) as (g' & -> & -> & Hg').
  eexists. split; [done|]. split; [|done].
  by destruct (apply_ops g2 _).
Qed.

End OneCaller.

Lemma SyncMap_holds :
  (∀ (s : SyncMap.t) m key,
     SyncMap.lock s = unlocked ∧ SyncMap.m s = m →
     ∃ s', Get s key = (Returned (map_index m key), s') ∧
           (SyncMap.lock s' = unlocked ∧ SyncMap.m s' = m)) ∧
  (∀ (s : SyncMap.t) m key value,
     SyncMap.lock s = unlocked ∧ SyncMap.m s = m →
     ∃ s', Set_ s key value = (Returned tt, s') ∧
           (SyncMap.lock s' = unlocked ∧ SyncMap.m s' = <[key := value]> m)).
Proof.
  split.
  - intros s m key [Hl <-]. exists s. split; [|done].
    apply SyncMap_Get_unfold. by rewrite Hl.
  - intros s m key value [Hl <-]. eexists. split; [by apply SyncMap_Set_unfold|done].
Qed.

Lemma GoMap_holds :
  (∀ (g : GoMap.t) m key,
     GoMap.closed g = false ∧ GoMap.worker g = running ∧ GoMap.m g = m →
     ∃ g', Get g key = (Returned (map_index m key), g') ∧
           (GoMap.closed g' = false ∧ GoMap.worker g' = running ∧ GoMap.m g' = m)) ∧
  (∀ (g : GoMap.t) m key value,
     GoMap.closed g = false ∧ GoMap.worker g = running ∧ GoMap.m g = m →
     ∃ g', Set_ g key value = (Returned tt, g') ∧
           (GoMap.closed g' = false ∧ GoMap.worker g' = running ∧
            GoMap.m g' = <[key := value]> m)).
Proof.
  split.
  - intros g m key (Hc & Hw & <-). eexists. split; [by apply GoMap_Get_unfold|done].
  - intros g m key value (Hc & Hw & <-). eexists.
    split; [by apply GoMap_Set_unfold|done].
Qed.

Lemma GoMap1Chan_holds :
  (∀ (g : GoMap1Chan.t) m key,
     GoMap1Chan.closed g = false ∧ GoMap1Chan.worker g = running ∧ GoMap1Chan.m g = m →
     ∃ g', Get g key = (Returned (map_index m key), g') ∧
           (GoMap1Chan.closed g' = false ∧ GoMap1Chan.worker g' = running ∧
            GoMap1Chan.m g' = m)) ∧
  (∀ (g : GoMap1Chan.t) m key value,
     GoMap1Chan.closed g = false ∧ GoMap1Chan.worker g = running ∧ GoMap1Chan.m g = m →
     ∃ g', Set_ g key value = (Returned tt, g') ∧
           (GoMap1Chan.closed g' = false ∧ GoMap1Chan.worker g' = running ∧
            GoMap1Chan.m g' = <[key := value]> m)).
Proof.
  split.
  - intros g m key (Hc & Hw & <-). eexists.
    split; [by apply GoMap1Chan_Get_unfold|done].
  - intros g m key value (Hc & Hw & <-). eexists.
    split; [by apply GoMap1Chan_Set_unfold|done].
Qed.

(** X9: for one caller a [SyncMap] is the same map as a [GoMap] and a
    [GoMap1Chan]. Whatever the calls, on each of the three stores every
    call returns, and every [Get] returns what a lookup returns in the
    map the [Set]s before it have made, with [nil] and [false] for a
    key that is not there; so the three stores, started with the same
    map, return the same results and end with the same map, the lock of
    the [SyncMap] free again. *)
Theorem X9_one_caller_same_map ops s g g1 :
  SyncMap.lock s = unlocked →
  GoMap.closed g = false → GoMap.worker g = running →
  GoMap1Chan.closed g1 = false → GoMap1Chan.worker g1 = running →
  GoMap.m g = SyncMap.m s → GoMap1Chan.m g1 = SyncMap.m s →
  (calls s ops).1
    = Returned ((λ x, x.2.2) <$> replay (SyncMap.m s) ((λ o, (O, o)) <$> ops)) ∧
  (calls g ops).1 = (calls s ops).1 ∧
  (calls g1 ops).1 = (calls s ops).1 ∧
  SyncMap.lock (calls s ops).2 = unlocked ∧
  SyncMap.m (calls s ops).2 = exec_ops (SyncMap.m s) ((λ o, (O, o)) <$> ops) ∧
  GoMap.m (calls g ops).2 = SyncMap.m (calls s ops).2 ∧
  GoMap1Chan.m (calls g1 ops).2 = SyncMap.m (calls s ops).2.
Proof.
  intros Hl Hc Hw Hc1 Hw1 Hm Hm1.
  destruct SyncMap_holds as [HG HS].
  destruct (calls_holds _ HG HS ops s (SyncMap.m s) (conj Hl eq_refl))
    as (Hr & Hl' & Hm').
  destruct GoMap_holds as [HGg HSg].
  destruct (calls_holds _ HGg HSg ops g (SyncMap.m s) (conj Hc (conj Hw Hm)))
    as (Hgr & _ & _ & Hgm).
  destruct GoMap1Chan_holds as [HG1 HS1].
  destruct (calls_holds _ HG1 HS1 ops g1 (SyncMap.m s) (conj Hc1 (conj Hw1 Hm1)))
    as (H1r & _ & _ & H1m).
  rewrite Hr, Hgr, H1r, Hgm, H1m, Hm'. done.
Qed.

Lemma X9_one_caller_same_map_witness :
  let ops := [op_get "a"; op_set "a" (int_iface 1); op_get "a"] in
  (calls SyncMap.NewSyncMap ops).1
    = Returned ((λ x, x.2.2) <$> replay ∅ ((λ o, (O, o)) <$> ops)) ∧
  (calls GoMap.NewGoMap ops).1 = (calls SyncMap.NewSyncMap ops).1 ∧
  (calls GoMap1Chan.NewGoMap1Chan ops).1 = (calls SyncMap.NewSyncMap ops).1 ∧
  SyncMap.lock (calls SyncMap.NewSyncMap ops).2 = unlocked ∧
  SyncMap.m (calls SyncMap.NewSyncMap ops).2 = exec_ops ∅ ((λ o, (O, o)) <$> ops) ∧
  GoMap.m (calls GoMap.NewGoMap ops).2 = SyncMap.m (calls SyncMap.NewSyncMap ops).2 ∧
  GoMap1Chan.m (calls GoMap1Chan.NewGoMap1Chan ops).2
    = SyncMap.m (calls SyncMap.NewSyncMap ops).2.
Proof.
  intros ops.
  apply (X9_one_caller_same_map ops SyncMap.NewSyncMap GoMap.NewGoMap
           GoMap1Chan.NewGoMap1Chan); reflexivity.
Defined.

(** X10: [TheTest], run by one goroutine on a store of any of the three
    kinds that can be used, never panics: every [Get] returns the value
    just stored, and the function returns after its 100000 turns. Each
    key drawn then holds ["The value " + key], and every other key holds
    what it held before. *)
Theorem X10_TheTest_returns Sprint rnd s g g1 :
  SyncMap.lock s = unlocked →
  GoMap.closed g = false → GoMap.worker g = running →
  GoMap1Chan.closed g1 = false → GoMap1Chan.worker g1 = running →
  (∃ s', TheTest Sprint s rnd = (Returned tt, s') ∧
     (∀ j, (j < Z.to_nat 100000)%nat →
        SyncMap.m s' !! Itoa (rnd j) = Some (string_iface (the_value (Itoa (rnd j))))) ∧
     (∀ key, (∀ j, (j < Z.to_nat 100000)%nat → key ≠ Itoa (rnd j)) →
        SyncMap.m s' !! key = SyncMap.m s !! key)) ∧
  (∃ g', TheTest Sprint g rnd = (Returned tt, g') ∧
     (∀ j, (j < Z.to_nat 100000)%nat →
        GoMap.m g' !! Itoa (rnd j) = Some (string_iface (the_value (Itoa (rnd j))))) ∧
     (∀ key, (∀ j, (j < Z.to_nat 100000)%nat → key ≠ Itoa (rnd j)) →
        GoMap.m g' !! key = GoMap.m g !! key)) ∧
  (∃ g1', TheTest Sprint g1 rnd = (Returned tt, g1') ∧
     (∀ j, (j < Z.to_nat 100000)%nat →
        GoMap1Chan.m g1' !! Itoa (rnd j) = Some (string_iface (the_value (Itoa (rnd j))))) ∧
     (∀ key, (∀ j, (j < Z.to_nat 100000)%nat → key ≠ Itoa (rnd j)) →
        GoMap1Chan.m g1' !! key = GoMap1Chan.m g1 !! key)).
Proof.
  intros Hl Hc Hw Hc1 Hw1. unfold TheTest.
  generalize (Z.to_nat 100000). intros n.
  split; [|split].
  - destruct SyncMap_holds as [HG HS].
    destruct (TheTest_loop_holds _ HG HS Sprint rnd n O s (SyncMap.m s) (conj Hl eq_refl))
      as (s' & -> & _ & _ & Hm).
    exists s'. split; [done|]. rewrite Hm. split.
    + intros j Hj. apply TheTest_calls_drawn. right. exists j. split; [lia|done].
    + intros key Hkey. apply TheTest_calls_not_drawn. intros j Hj. apply Hkey. lia.
  - destruct GoMap_holds as [HG HS].
    destruct (TheTest_loop_holds _ HG HS Sprint rnd n O g (GoMap.m g)
                (conj Hc (conj Hw eq_refl))) as (g' & -> & _ & _ & _ & Hm).
    exists g'. split; [done|]. rewrite Hm. split.
    + intros j Hj. apply TheTest_calls_drawn. right. exists j. split; [lia|done].
    + intros key Hkey. apply TheTest_calls_not_drawn. intros j Hj. apply Hkey. lia.
  - destruct GoMap1Chan_holds as [HG HS].
    destruct (TheTest_loop_holds _ HG HS Sprint rnd n O g1 (GoMap1Chan.m g1)
                (conj Hc1 (conj Hw1 eq_refl))) as (g' & -> & _ & _ & _ & Hm).
    exists g'. split; [done|]. rewrite Hm. split.
    + intros j Hj. apply TheTest_calls_drawn. right. exists j. split; [lia|done].
    + intros key Hkey. apply TheTest_calls_not_drawn. intros j Hj. apply Hkey. lia.
Qed.

Lemma X10_TheTest_returns_witness :
  ∃ s' g' g1',
    TheTest (λ _, "") SyncMap.NewSyncMap (λ j, Z.of_nat j `mod` 500) = (Returned tt, s') ∧
    TheTest (λ _, "") GoMap.NewGoMap (λ j, Z.of_nat j `mod` 500) = (Returned tt, g') ∧
    TheTest (λ _, "") GoMap1Chan.NewGoMap1Chan (λ j, Z.of_nat j `mod` 500)
      = (Returned tt, g1').
Proof.
  destruct (X10_TheTest_returns (λ _, "") (λ j, Z.of_nat j `mod` 500)
              SyncMap.NewSyncMap GoMap.NewGoMap GoMap1Chan.NewGoMap1Chan
              eq_refl eq_refl eq_refl eq_refl eq_refl)
    as ((s' & Hs & _) & (g' & Hg & _) & (g1' & Hg1 & _)).
  exists s', g', g1'. exact (conj Hs (conj Hg Hg1)).
Defined.

(** ** Several callers: the test in parallel, and reading one's own write *)

Lemma in_step_worker_map sys m : in_step sys m → worker_map (w sys) = Some m.
Proof.
  unfold in_step. destruct (w sys); simpl; try done.
  - by intros [-> _].
  - by intros [-> _].
Qed.

Section ActorTests.

Variable Msg : Type.
Variable body : gmap string iface → Msg → loop_step.
Variable get_msg : mapGet → Msg.
Variable set_msg : mapSet → Msg.

Hypothesis body_get : ∀ m r,
  body m (get_msg r)
    = next_iter m (Some (mapGet_out r,
                         {| mapResult_value := (map_index m (mapGet_key r)).1;
                            mapResult_ok := (map_index m (mapGet_key r)).2 |})).
Hypothesis body_set : ∀ m r,
  body m (set_msg r) = next_iter (<[mapSet_key r := mapSet_value r]> m) None.

Local Abbreviation astep := (step Msg body get_msg set_msg).

(** The map after a step, and that worker and callers are still in
    step. *)
Lemma in_step_next sys sys' m :
  in_step sys m → astep sys sys' →
  ∃ m', in_step sys' m' ∧ worker_map (w sys') = Some m'.
Proof.
  intros Hin Hstep.
  destruct (in_step_step _ _ _ _ body_get body_set _ _ _ Hin Hstep)
    as [?|(? & ? & ? & ? & ? & _ & _ & ?)]; eauto using in_step_worker_map.
Qed.

Lemma TestInParallel_inv_start m n rnds :
  test_values m → TestInParallel_inv (TestInParallel_system m n rnds).
Proof.
  intros Hval. exists m. split; [|split; [done|]].
  - unfold in_step, TestInParallel_system. cbn [w callers]. split; [reflexivity|].
    intros j cl (rnd & -> & _)%list_lookup_fmap_Some. reflexivity.
  - unfold TestInParallel_system. cbn [callers].
    intros j cl (rnd & -> & _)%list_lookup_fmap_Some. split.
    + left. exists rnd, (Z.to_nat 100000), O. reflexivity.
    + unfold start. cbn [got]. intros key r Hin. by apply elem_of_nil in Hin.
Qed.

Lemma in_TheTest_insert m key cl :
  in_TheTest m cl →
  in_TheTest (<[key := string_iface (the_value key)]> m) cl.
Proof.
  intros [?|(k & rnd & n & i & Htodo & Hk)]; [by left|].
  right. exists k, rnd, n, i. split; [done|].
  destruct (decide (key = k)) as [->|Hne].
  - rewrite lookup_insert_eq. eauto.
  - by rewrite lookup_insert_ne.
Qed.

Lemma TestInParallel_inv_step sys sys' :
  TestInParallel_inv sys → astep sys sys' → TestInParallel_inv sys'.
Proof.
  intros (m & Hin & Hval & Hcl) Hstep.
  destruct (in_step_next _ _ _ Hin Hstep) as (m' & Hin' & Hm').
  pose proof Hin as Hin0. unfold in_step in Hin.
  inversion Hstep as [sys0 m0 i cl key value rest Hw Hi Hpc Htodo
                     |sys0 m0 i cl key rest Hw Hi Hpc Htodo
                     |sys0 m0 c r i cl key rest Hw Hi Hpc Htodo]; subst;
    rewrite Hw in Hin; simpl in Hm'.
  - destruct Hin as [-> _]. rewrite body_set in Hm'. simpl in Hm'.
    injection Hm' as <-.
    destruct (Hcl i cl Hi) as [[(rnd & n & i0 & Hprog)|(k & rnd & n & i0 & Hprog & _)] Hgot];
      [|congruence].
    rewrite Htodo in Hprog. destruct n as [|n]; [done|].
    simpl in Hprog. injection Hprog as -> -> ->.
    eexists. split; [done|]. split.
    + intros k v [[<- <-]|[_ Hk]]%lookup_insert_Some; [done|by apply Hval].
    + simpl. intros j cl' [(_ & <- & _)|(_ & Hj)]%list_lookup_insert_Some.
      * simpl. split; [|done]. right. eexists _, rnd, n, (S i0). split; [done|].
        rewrite lookup_insert_eq. eauto.
      * destruct (Hcl j cl' Hj) as [Hp Hg]. split; [|done].
        by apply in_TheTest_insert.
  - destruct Hin as [-> _]. rewrite body_get in Hm'. simpl in Hm'.
    injection Hm' as <-.
    exists m. split; [done|]. split; [done|].
    simpl. intros j cl' [(_ & <- & _)|(_ & Hj)]%list_lookup_insert_Some; [|by eapply Hcl].
    destruct (Hcl i cl Hi) as [Hp Hg]. split; [exact Hp|exact Hg].
  - destruct Hin as (-> & i0 & cl0 & key0 & rest0 & Hi0 & Hpc0 & Htodo0 & Hr & Hothers).
    injection Hm' as <-.
    assert (i = i0) as <-.
    { destruct (decide (i = i0)) as [|Hne]; [done|].
      specialize (Hothers i cl Hne Hi). congruence. }
    rewrite Hi in Hi0. injection Hi0 as <-.
    rewrite Htodo in Htodo0. injection Htodo0 as <- <-.
    exists m. split; [done|]. split; [done|].
    simpl. intros j cl' [(_ & <- & _)|(_ & Hj)]%list_lookup_insert_Some; [|by eapply Hcl].
    simpl.
    destruct (Hcl i cl Hi) as [[(rnd & n & i1 & Hprog)|(k & rnd & n & i1 & Hprog & [v Hk])] Hgot].
    { rewrite Htodo in Hprog. by destruct n. }
    rewrite Htodo in Hprog. injection Hprog as <- ->.
    split; [left; eauto|].
    intros k r' [Hold|Hnew%list_elem_of_singleton]%elem_of_app; [by apply Hgot|].
    injection Hnew as -> ->. rewrite Hr.
    pose proof (Hval _ _ Hk) as ->. by apply map_index_present.
Qed.

Lemma TestInParallel_inv_rtc sys sys' :
  rtc astep sys sys' → TestInParallel_inv sys → TestInParallel_inv sys'.
Proof. induction 1; eauto using TestInParallel_inv_step. Qed.

Lemma TestInParallel_results m n rnds sys :
  test_values m → rtc astep (TestInParallel_system m n rnds) sys →
  (∀ cl key r, cl ∈ callers sys → (key, r) ∈ got cl →
     r = (string_iface (the_value key), true) ∧ differs (the_value key) r.1 = false) ∧
  (∀ i cl, callers sys !! i = Some cl → todo cl ≠ [] → ∃ sys', astep sys sys').
Proof.
  intros Hval Hrtc.
  destruct (TestInParallel_inv_rtc _ _ Hrtc (TestInParallel_inv_start m n rnds Hval))
    as (m' & Hin & _ & Hcl).
  split.
  - intros cl key r [j Hj]%list_elem_of_lookup Hgot.
    destruct (Hcl j cl Hj) as [_ Hg]. rewrite (Hg key r Hgot).
    split; [done|]. apply differs_the_value.
  - intros i cl Hi Htodo.
    by eapply (in_step_progress _ _ _ _ sys m' i cl).
Qed.

Lemma own_write_inv_step a key value rest G sys sys' :
  own_write_inv a key value rest G sys → astep sys sys' →
  own_write_inv a key value rest G sys'.
Proof.
  intros (m & Hin & Hothers & cl & Ha & Hcases) Hstep.
  destruct (in_step_next _ _ _ Hin Hstep) as (m' & Hin' & Hm').
  unfold in_step in Hin.
  inversion Hstep as [sys0 m0 i ci k v rs Hw Hi Hpc Htodo
                     |sys0 m0 i ci k rs Hw Hi Hpc Htodo
                     |sys0 m0 c r i ci k rs Hw Hi Hpc Htodo]; subst;
    rewrite Hw in Hin; simpl in Hm'.
  - destruct Hin as [-> _]. rewrite body_set in Hm'. simpl in Hm'.
    injection Hm' as <-. eexists. split; [done|]. simpl. split.
    + intros j cl' Hne [(<- & <- & _)|(_ & Hj)]%list_lookup_insert_Some v'; [|by eapply Hothers].
      simpl. intros Hin. apply (Hothers i ci Hne Hi v'). rewrite Htodo. by right.
    + destruct (decide (i = a)) as [->|Hne].
      * rewrite Hi in Ha. injection Ha as <-.
        eexists. split; [apply list_lookup_insert_eq; by eapply lookup_lt_Some|].
        simpl. destruct Hcases as [[Ht Hg]|[(Ht & _)|(more & Hg & Hsuf)]].
        -- rewrite Htodo in Ht. injection Ht as -> -> ->.
           right; left. by rewrite lookup_insert_eq.
        -- congruence.
        -- right; right. exists more. split; [done|].
           rewrite Htodo in Hsuf. by eapply suffix_cons_l.
      * exists cl. split; [by rewrite list_lookup_insert_ne|].
        destruct Hcases as [?|[(Ht & Hg & Hk)|?]]; [by left| |by right; right].
        right; left. split; [done|]. split; [done|].
        rewrite lookup_insert_ne; [done|]. intros ->.
        apply (Hothers i ci Hne Hi v). rewrite Htodo. by left.
  - destruct Hin as [-> _]. rewrite body_get in Hm'. simpl in Hm'.
    injection Hm' as <-. exists m. split; [done|]. simpl. split.
    + intros j cl' Hne [(<- & <- & _)|(_ & Hj)]%list_lookup_insert_Some v'; [|by eapply Hothers].
      simpl. by eapply Hothers.
    + destruct (decide (i = a)) as [->|Hne].
      * rewrite Hi in Ha. injection Ha as <-.
        eexists. split; [apply list_lookup_insert_eq; by eapply lookup_lt_Some|].
        done.
      * exists cl. split; [by rewrite list_lookup_insert_ne|done].
  - destruct Hin as (-> & i0 & cl0 & key0 & rest0 & Hi0 & Hpc0 & Htodo0 & Hr & Hready).
    injection Hm' as <-.
    assert (i = i0) as <-.
    { destruct (decide (i = i0)) as [|Hne]; [done|].
      specialize (Hready i ci Hne Hi). congruence. }
    rewrite Hi in Hi0. injection Hi0 as <-.
    rewrite Htodo in Htodo0. injection Htodo0 as <- <-.
    exists m. split; [done|]. simpl. split.
    + intros j cl' Hne [(<- & <- & _)|(_ & Hj)]%list_lookup_insert_Some v'; [|by eapply Hothers].
      simpl. intros Hin. apply (Hothers i ci Hne Hi v'). rewrite Htodo. by right.
    + destruct (decide (i = a)) as [->|Hne].
      * rewrite Hi in Ha. injection Ha as <-.
        eexists. split; [apply list_lookup_insert_eq; by eapply lookup_lt_Some|].
        simpl. destruct Hcases as [[Ht Hg]|[(Ht & Hg & Hk)|(more & Hg & Hsuf)]].
        -- congruence.
        -- rewrite Htodo in Ht. injection Ht as -> ->.
           right; right. exists []. rewrite Hg, Hr, (map_index_present _ _ _ Hk).
           done.
        -- right; right. exists (more ++ [(k, (mapResult_value r, mapResult_ok r))]).
           rewrite Hg, <- app_assoc. split; [done|].
           rewrite Htodo in Hsuf. by eapply suffix_cons_l.
      * exists cl. split; [by rewrite list_lookup_insert_ne|done].
Qed.

Lemma own_write_inv_rtc a key value rest G sys sys' :
  rtc astep sys sys' →
  own_write_inv a key value rest G sys → own_write_inv a key value rest G sys'.
Proof. induction 1; eauto using own_write_inv_step. Qed.

Lemma own_write_read sys sys' m a cl key value rest cl' :
  in_step sys m →
  callers sys !! a = Some cl →
  todo cl = op_set key value :: op_get key :: rest →
  (∀ j clj, j ≠ a → callers sys !! j = Some clj → ∀ v, op_set key v ∉ todo clj) →
  rtc astep sys sys' →
  callers sys' !! a = Some cl' →
  (todo cl' = op_set key value :: op_get key :: rest ∧ got cl' = got cl) ∨
  (todo cl' = op_get key :: rest ∧ got cl' = got cl) ∨
  (∃ more, got cl' = got cl ++ (key, (value, true)) :: more ∧ todo cl' `suffix_of` rest).
Proof.
  intros Hin Ha Htodo Hothers Hrtc Ha'.
  assert (own_write_inv a key value rest (got cl) sys') as (m' & _ & _ & cl0 & Ha0 & Hc).
  { apply (own_write_inv_rtc _ _ _ _ _ sys sys' Hrtc).
    exists m. split; [done|]. split; [done|]. exists cl. split; [done|]. by left. }
  rewrite Ha' in Ha0. injection Ha0 as <-.
  destruct Hc as [?|[(? & ? & _)|?]]; eauto.
Qed.

End ActorTests.

Lemma test_values_empty : test_values ∅.
Proof. by intros key v ?%lookup_empty_Some. Qed.

(** X11: [TestInParallel] on a [GoMap] or a [GoMap1Chan] whose map holds
    only test values (the new store's empty map does): however the
    goroutines are scheduled and whatever numbers they draw, every [Get]
    of [TheTest] returns ["The value " + key] with [true], so the
    comparison in [TheTest] never fails and no goroutine panics; and as
    long as a goroutine has calls left the system can move. *)
Theorem X11_TestInParallel_never_fails m n rnds sys :
  test_values m →
  (rtc GoMap_step (TestInParallel_system m n rnds) sys →
     (∀ cl key r, cl ∈ callers sys → (key, r) ∈ got cl →
        r = (string_iface (the_value key), true) ∧
        differs (the_value key) r.1 = false) ∧
     (∀ i cl, callers sys !! i = Some cl → todo cl ≠ [] →
        ∃ sys', GoMap_step sys sys')) ∧
  (rtc GoMap1Chan_step (TestInParallel_system m n rnds) sys →
     (∀ cl key r, cl ∈ callers sys → (key, r) ∈ got cl →
        r = (string_iface (the_value key), true) ∧
        differs (the_value key) r.1 = false) ∧
     (∀ i cl, callers sys !! i = Some cl → todo cl ≠ [] →
        ∃ sys', GoMap1Chan_step sys sys')).
Proof.
  intros Hval. split; intros Hrtc.
  - by apply (TestInParallel_results _ _ _ _ GoMap_body_get GoMap_body_set m n rnds).
  - by apply (TestInParallel_results _ _ _ _ GoMap1Chan_body_get GoMap1Chan_body_set
                m n rnds).
Qed.

Lemma X11_TestInParallel_never_fails_witness :
  let sys := TestInParallel_system ∅ O [λ j, Z.of_nat j `mod` 500; λ _, 7] in
  (∀ cl key r, cl ∈ callers sys → (key, r) ∈ got cl →
     r = (string_iface (the_value key), true) ∧
     differs (the_value key) r.1 = false) ∧
  (∀ i cl, callers sys !! i = Some cl → todo cl ≠ [] → ∃ sys', GoMap_step sys sys').
Proof.
  intros sys.
  apply (X11_TestInParallel_never_fails ∅ O [λ j, Z.of_nat j `mod` 500; λ _, 7] sys
           test_values_empty).
  apply rtc_refl.
Defined.

(** A caller's [Set] and [Get] served one after the other. *)
Lemma GoMap_set_get_run m n key value :
  rtc GoMap_step
    {| w := receiving m; callers := [start [op_set key value; op_get key]]; chans := n |}
    {| w := receiving (<[key := value]> m);
       callers := [{| todo := []; pc := ready; got := [(key, (value, true))] |}];
       chans := S n |}.
Proof.
  eapply rtc_l.
  { eapply (step_Set _ _ _ _ _ m 0%nat (start [op_set key value; op_get key])); done. }
  simpl. eapply rtc_l.
  { eapply (step_Get_send _ _ _ _ _ (<[key := value]> m) 0%nat
              {| todo := [op_get key]; pc := ready; got := [] |}); done. }
  simpl. rewrite map_index_insert. eapply rtc_l; [|apply rtc_refl].
  pose proof (step_Get_reply GoMap.select_case GoMap.run_body
    (λ r, GoMap.case_get (received r)) (λ r, GoMap.case_set (received r))
    {| w := replying (<[key := value]> m) n
                     {| mapResult_value := value; mapResult_ok := true |};
       callers := [{| todo := [op_get key]; pc := awaiting n; got := [] |}];
       chans := S n |}
    _ n _ 0%nat _ key [] eq_refl eq_refl eq_refl eq_refl) as Hs.
  exact Hs.
Qed.

(** X12: a caller that calls [Set(k, v)] and then [Get(k)] on a [GoMap]
    or a [GoMap1Chan], while other callers run concurrently but none of
    them sets [k], gets [v] with [true] from that [Get], under every
    schedule: at any later moment the caller either has not finished the
    two calls, and has got nothing new, or the first result it has got
    since is [(v, true)] for [k]. *)
Theorem X12_Get_after_own_Set sys sys' m a cl key value rest cl' :
  in_step sys m →
  callers sys !! a = Some cl →
  todo cl = op_set key value :: op_get key :: rest →
  (∀ j clj, j ≠ a → callers sys !! j = Some clj → ∀ v, op_set key v ∉ todo clj) →
  (rtc GoMap_step sys sys' ∨ rtc GoMap1Chan_step sys sys') →
  callers sys' !! a = Some cl' →
  (todo cl' = op_set key value :: op_get key :: rest ∧ got cl' = got cl) ∨
  (todo cl' = op_get key :: rest ∧ got cl' = got cl) ∨
  (∃ more, got cl' = got cl ++ (key, (value, true)) :: more ∧ todo cl' `suffix_of` rest).
Proof.
  intros Hin Ha Htodo Hothers [Hrtc|Hrtc] Ha'.
  - by eapply (own_write_read _ _ _ _ GoMap_body_get GoMap_body_set sys sys' m a cl).
  - by eapply (own_write_read _ _ _ _ GoMap1Chan_body_get GoMap1Chan_body_set
                 sys sys' m a cl).
Qed.

Lemma X12_Get_after_own_Set_witness :
  let cl' := {| todo := []; pc := ready; got := [("k", (int_iface 1, true))] |} in
  (todo cl' = [op_set "k" (int_iface 1); op_get "k"] ∧ got cl' = []) ∨
  (todo cl' = [op_get "k"] ∧ got cl' = []) ∨
  (∃ more, got cl' = [] ++ ("k", (int_iface 1, true)) :: more ∧ todo cl' `suffix_of` []).
Proof.
  intros cl'.
  apply (X12_Get_after_own_Set
           {| w := receiving ∅;
              callers := [start [op_set "k" (int_iface 1); op_get "k"]]; chans := O |}
           {| w := receiving (<["k" := int_iface 1]> ∅); callers := [cl']; chans := 1%nat |}
           ∅ O (start [op_set "k" (int_iface 1); op_get "k"]) "k" (int_iface 1) [] cl').
  - split; [reflexivity|]. intros [|[|j]] cl0 Hj; simpl in Hj; by simplify_eq.
  - reflexivity.
  - reflexivity.
  - intros [|[|j]] clj Hne Hj; simpl in Hj; by simplify_eq.
  - left. apply GoMap_set_get_run.
  - reflexivity.
Defined.

(** X13: whatever the programs of the callers of a [GoMap] or a
    [GoMap1Chan] and however the goroutines are scheduled, the calls
    served so far can be put in one order that keeps every caller's own
    order and explains everything seen: the worker's map is the map
    after the [Set]s in that order, and every caller between two calls
    has made exactly its calls of that order and got from its [Get]s
    the lookups at their places in it. *)
Theorem X13_calls_in_one_order m0 n progs sys :
  (rtc GoMap_step {| w := receiving m0; callers := start <$> progs; chans := n |} sys ∨
   rtc GoMap1Chan_step {| w := receiving m0; callers := start <$> progs; chans := n |} sys) →
  ∃ tr,
    worker_map (w sys) = Some (exec_ops m0 tr) ∧
    ∀ i cl, callers sys !! i = Some cl → pc cl = ready →
      progs !! i = Some (of_caller i tr ++ todo cl) ∧
      got cl = of_caller i (replay m0 tr).
Proof. apply GoMap_calls_totally_ordered. Qed.

Lemma X13_calls_in_one_order_witness :
  let sys := {| w := receiving (<["k" := int_iface 1]> ∅);
                callers := [{| todo := []; pc := ready;
                               got := [("k", (int_iface 1, true))] |}];
                chans := 1%nat |} in
  ∃ tr,
    worker_map (w sys) = Some (exec_ops ∅ tr) ∧
    ∀ i cl, callers sys !! i = Some cl → pc cl = ready →
      [[op_set "k" (int_iface 1); op_get "k"]] !! i = Some (of_caller i tr ++ todo cl) ∧
      got cl = of_caller i (replay ∅ tr).
Proof.
  intros sys.
  apply (X13_calls_in_one_order ∅ O [[op_set "k" (int_iface 1); op_get "k"]] sys).
  left. apply GoMap_set_get_run.
Defined.

(** X14: a [GoMap] or [GoMap1Chan] and its callers never deadlock: from
    a system in which worker and callers are in step (as when the
    worker waits for a request and every caller is between two calls),
    in every state reached, if some caller still has calls to make then
    a step is possible. *)
Theorem X14_no_deadlock sys sys' m i cl :
  (rtc GoMap_step sys sys' ∨ rtc GoMap1Chan_step sys sys') →
  in_step sys m → callers sys' !! i = Some cl → todo cl ≠ [] →
  (∃ sys'', GoMap_step sys' sys'') ∧ (∃ sys'', GoMap1Chan_step sys' sys'').
Proof. apply actors_deadlock_free. Qed.

Lemma X14_no_deadlock_witness :
  let sys := {| w := receiving ∅; callers := [start [op_get "k"]]; chans := O |} in
  (∃ sys'', GoMap_step sys sys'') ∧ (∃ sys'', GoMap1Chan_step sys sys'').
Proof.
  intros sys.
  apply (X14_no_deadlock sys sys ∅ O (start [op_get "k"])).
  - left. apply rtc_refl.
  - split; [reflexivity|]. intros [|[|j]] cl0 Hj; simpl in Hj; by simplify_eq.
  - reflexivity.
  - discriminate.
Defined.

(** X15: which of two concurrent [Set]s on one key is served last is not
    determined: on both stores there is a schedule that leaves the
    value of caller B in the map and one that leaves the value of
    caller A. *)
Theorem X15_either_Set_can_be_last m n key v1 v2 :
  (∃ sys m', rtc GoMap_step (two_setters m n key v1 v2) sys ∧ all_done sys ∧
             w sys = receiving m' ∧ m' !! key = Some v2) ∧
  (∃ sys m', rtc GoMap_step (two_setters m n key v1 v2) sys ∧ all_done sys ∧
             w sys = receiving m' ∧ m' !! key = Some v1) ∧
  (∃ sys m', rtc GoMap1Chan_step (two_setters m n key v1 v2) sys ∧ all_done sys ∧
             w sys = receiving m' ∧ m' !! key = Some v2) ∧
  (∃ sys m', rtc GoMap1Chan_step (two_setters m n key v1 v2) sys ∧ all_done sys ∧
             w sys = receiving m' ∧ m' !! key = Some v1).
Proof.
  destruct (two_setters_either_order m n key v1 v2) as [[H1 H2] [H3 H4]].
  assert (∀ m', all_done {| w := receiving m'; callers := [start []; start []];
                            chans := n |}) as Hdone.
  { intros m' cl Hcl. simpl in Hcl.
    apply elem_of_cons in Hcl as [->|Hcl]; [done|].
    apply elem_of_cons in Hcl as [->|Hcl]; [done|].
    by apply elem_of_nil in Hcl. }
  split; [|split; [|split]].
  - eexists _, _. split; [exact H1|]. split; [apply Hdone|].
    split; [reflexivity|]. apply lookup_insert_eq.
  - eexists _, _. split; [exact H2|]. split; [apply Hdone|].
    split; [reflexivity|]. apply lookup_insert_eq.
  - eexists _, _. split; [exact H3|]. split; [apply Hdone|].
    split; [reflexivity|]. apply lookup_insert_eq.
  - eexists _, _. split; [exact H4|]. split; [apply Hdone|].
    split; [reflexivity|]. apply lookup_insert_eq.
Qed.

(** ** The test in parallel on the map behind the lock *)

Lemma find_at p gs :
  (∃ i g, gs !! i = Some g ∧ g_pc g = p) ∨ nobody_at p gs.
Proof.
  induction gs as [|a gs [(i & g & Hi & Hg)|IH]].
  - right. by intros j g ?.
  - left. by exists (S i), g.
  - assert (g_pc a = p ∨ g_pc a ≠ p) as [Ha|Ha] by (destruct (g_pc a), p; eauto).
    + left. by exists O, a.
    + right. intros [|j] g Hj; simpl in Hj; [by simplify_eq|by eapply IH].
Qed.

Lemma one_writer_insert gs i g' :
  one_writer gs →
  (g_pc g' = Lock_pending ∨ g_pc g' = holds_Lock →
   ∀ j gj, j ≠ i → gs !! j = Some gj →
     g_pc gj ≠ Lock_pending ∧ g_pc gj ≠ holds_Lock ∧
     (g_pc g' = holds_Lock → g_pc gj = outside)) →
  (∀ a ga, a ≠ i → gs !! a = Some ga →
     g_pc ga = Lock_pending ∨ g_pc ga = holds_Lock →
     g_pc g' ≠ Lock_pending ∧ g_pc g' ≠ holds_Lock ∧
     (g_pc ga = holds_Lock → g_pc g' = outside)) →
  one_writer (<[i := g']> gs).
Proof.
  intros Hone Hnew Hold a ga Ha Hpa b gb Hne Hb.
  apply list_lookup_insert_Some in Ha as [(<- & <- & _)|(Hai & Ha)];
    apply list_lookup_insert_Some in Hb as [(<- & <- & _)|(Hbi & Hb)].
  - done.
  - by apply (Hnew Hpa b gb).
  - by apply (Hold a ga).
  - by apply (Hone a ga Ha Hpa b gb).
Qed.

Lemma goroutine_in_TheTest_insert m key g :
  goroutine_in_TheTest m g →
  goroutine_in_TheTest (<[key := string_iface (the_value key)]> m) g.
Proof.
  intros [?|(k & rnd & n & i & Htodo & Hk)]; [by left|].
  right. exists k, rnd, n, i. split; [done|].
  destruct (decide (key = k)) as [->|Hne].
  - rewrite lookup_insert_eq. eauto.
  - by rewrite lookup_insert_ne.
Qed.

Lemma TestInParallel_shared_inv_step sh sh' :
  TestInParallel_shared_inv sh → SyncMap_step sh sh' → TestInParallel_shared_inv sh'.
Proof.
  intros (Hone & Hval & Hg) Hstep.
  inversion Hstep as [sh0 i g key value rest Hi Hpc Htodo Hnp Hnh
                     |sh0 i g Hi Hpc Hnr
                     |sh0 i g key value rest Hi Hpc Htodo
                     |sh0 i g key rest Hi Hpc Htodo Hnp Hnh
                     |sh0 i g key rest Hi Hpc Htodo]; subst;
    unfold TestInParallel_shared_inv; simpl;
    destruct (Hg i g Hi) as (Hcall & Htest & Hgot).
  - split; [|split; [done|]].
    + apply one_writer_insert; [done| |]; simpl.
      * intros _ j gj Hne Hj. split; [by eapply Hnp|]. split; [by eapply Hnh|done].
      * intros a ga Hne Ha [Hp|Hp]; [by destruct (Hnp a ga Ha)|by destruct (Hnh a ga Ha)].
    + intros j g' [(_ & <- & _)|(_ & Hj)]%list_lookup_insert_Some; [|exact (Hg j g' Hj)].
      split; [|done]. unfold in_its_call; simpl. eauto.
  - split; [|split; [done|]].
    + apply one_writer_insert; [done| |]; simpl.
      * intros _ j gj Hne Hj.
        destruct (Hone i g Hi (or_introl Hpc) j gj Hne Hj) as (Hp1 & Hp2 & _).
        split; [done|]. split; [done|]. intros _.
        pose proof (Hnr j gj Hj). by destruct (g_pc gj).
      * intros a ga Hne Ha Hpa.
        destruct (Hone i g Hi (or_introl Hpc) a ga Hne Ha) as (Hp1 & Hp2 & _).
        by destruct Hpa.
    + intros j g' [(_ & <- & _)|(_ & Hj)]%list_lookup_insert_Some; [|exact (Hg j g' Hj)].
      split; [|done]. unfold in_its_call in *; simpl. by rewrite Hpc in Hcall.
  - destruct Htest as [(rnd & n & i0 & Hprog)|(k & rnd & n & i0 & Hprog & _)];
      [|congruence].
    rewrite Htodo in Hprog. destruct n as [|n]; [done|].
    simpl in Hprog. injection Hprog as -> -> ->.
    split; [|split].
    + apply one_writer_insert; [done| |]; simpl.
      * by intros [?|?].
      * intros a ga Hne Ha Hpa.
        destruct (Hone i g Hi (or_intror Hpc) a ga Hne Ha) as (Hp1 & Hp2 & _).
        by destruct Hpa.
    + intros k v [[<- <-]|[_ Hk]]%lookup_insert_Some; [done|by apply Hval].
    + intros j g' [(_ & <- & _)|(_ & Hj)]%list_lookup_insert_Some.
      * split; [done|]. split; [|done]. right.
        eexists _, rnd, n, (S i0). split; [done|]. rewrite lookup_insert_eq. eauto.
      * destruct (Hg j g' Hj) as (? & ? & ?). split; [done|]. split; [|done].
        by apply goroutine_in_TheTest_insert.
  - split; [|split; [done|]].
    + apply one_writer_insert; [done| |]; simpl.
      * by intros [?|?].
      * intros a ga Hne Ha [Hp|Hp]; [by destruct (Hnp a ga Ha)|by destruct (Hnh a ga Ha)].
    + intros j g' [(_ & <- & _)|(_ & Hj)]%list_lookup_insert_Some; [|exact (Hg j g' Hj)].
      split; [|done]. unfold in_its_call; simpl. eauto.
  - split; [|split; [done|]].
    + apply one_writer_insert; [done| |]; simpl.
      * by intros [?|?].
      * intros a ga Hne Ha Hpa. done.
    + intros j g' [(_ & <- & _)|(_ & Hj)]%list_lookup_insert_Some; [|exact (Hg j g' Hj)].
      split; [done|].
      destruct Htest as [(rnd & n & i1 & Hprog)|(k & rnd & n & i1 & Hprog & [v Hk])].
      { rewrite Htodo in Hprog. by destruct n. }
      rewrite Htodo in Hprog. injection Hprog as <- ->.
      split; [left; eauto|]. simpl.
      intros k r' [Hold|Hnew%list_elem_of_singleton]%elem_of_app; [by apply Hgot|].
      injection Hnew as -> ->.
      pose proof (Hval _ _ Hk) as ->. by apply map_index_present.
Qed.

Lemma TestInParallel_shared_inv_start s rnds :
  test_values (SyncMap.m s) →
  TestInParallel_shared_inv (TestInParallel_shared s rnds).
Proof.
  intros Hval. unfold TestInParallel_shared_inv, TestInParallel_shared.
  cbn [goroutines shared_m]. split; [|split; [exact Hval|]].
  - intros i gi (rnd & -> & _)%list_lookup_fmap_Some Hp.
    cbn [g_pc] in Hp. by destruct Hp.
  - intros j g (rnd & -> & _)%list_lookup_fmap_Some.
    split; [exact I|]. split.
    + left. exists rnd, (Z.to_nat 100000), O. reflexivity.
    + cbn [g_got]. intros key r Hin. by apply elem_of_nil in Hin.
Qed.

Lemma shared_progress sh i g :
  (∀ j g', goroutines sh !! j = Some g' → in_its_call g') →
  goroutines sh !! i = Some g → g_todo g ≠ [] →
  ∃ sh', SyncMap_step sh sh'.
Proof.
  intros Hcall Hi Htodo.
  destruct (find_at holds_Lock (goroutines sh)) as [(a & ga & Ha & Hpa)|Hnh].
  { pose proof (Hcall a ga Ha) as Hc. unfold in_its_call in Hc. rewrite Hpa in Hc.
    destruct Hc as (key & value & rest & Hc).
    eexists. exact (step_Set_return sh a ga key value rest Ha Hpa Hc). }
  destruct (find_at holds_RLock (goroutines sh)) as [(a & ga & Ha & Hpa)|Hnr].
  { pose proof (Hcall a ga Ha) as Hc. unfold in_its_call in Hc. rewrite Hpa in Hc.
    destruct Hc as (key & rest & Hc).
    eexists. exact (step_Get_return sh a ga key rest Ha Hpa Hc). }
  destruct (find_at Lock_pending (goroutines sh)) as [(a & ga & Ha & Hpa)|Hnp].
  { eexists. exact (step_Lock_acquire sh a ga Ha Hpa Hnr). }
  assert (g_pc g = outside) as Hpc.
  { pose proof (Hnh i g Hi). pose proof (Hnr i g Hi). pose proof (Hnp i g Hi).
    by destruct (g_pc g). }
  destruct (g_todo g) as [|[key|key value] rest] eqn:Hg; [done| |].
  - eexists. exact (step_RLock_acquire sh i g key rest Hi Hpc Hg Hnp Hnh).
  - eexists. exact (step_Lock_announce sh i g key value rest Hi Hpc Hg Hnp Hnh).
Qed.

(** A goroutine that is alone makes, step by step, the call that [Get]
    and [Set_] of the [SyncMap] make at once: same result, same map. *)
Lemma SyncMap_step_alone m key value :
  (∃ r, (SyncMap.Get {| SyncMap.lock := unlocked; SyncMap.m := m |} key).1 = Returned r ∧
        rtc SyncMap_step
          {| shared_m := m;
             goroutines := [{| g_todo := [op_get key]; g_pc := outside; g_got := [] |}] |}
          {| shared_m := m;
             goroutines := [{| g_todo := []; g_pc := outside; g_got := [(key, r)] |}] |}) ∧
  rtc SyncMap_step
    {| shared_m := m;
       goroutines := [{| g_todo := [op_set key value]; g_pc := outside; g_got := [] |}] |}
    {| shared_m :=
         SyncMap.m (SyncMap.Set_ {| SyncMap.lock := unlocked; SyncMap.m := m |} key value).2;
       goroutines := [{| g_todo := []; g_pc := outside; g_got := [] |}] |}.
Proof.
  assert (∀ p, p ≠ outside →
            nobody_at p [{| g_todo := [op_get key]; g_pc := outside; g_got := [] |}]) as Hget.
  { intros p Hp [|j] g Hj; simpl in Hj; simplify_eq. simpl. congruence. }
  assert (∀ p, p ≠ outside →
            nobody_at p [{| g_todo := [op_set key value]; g_pc := outside; g_got := [] |}])
    as Hset.
  { intros p Hp [|j] g Hj; simpl in Hj; simplify_eq. simpl. congruence. }
  split.
  - exists (map_index m key). split.
    { unfold SyncMap.Get; simpl. by destruct (map_index m key). }
    eapply rtc_l.
    { exact (step_RLock_acquire
               {| shared_m := m;
                  goroutines := [{| g_todo := [op_get key]; g_pc := outside; g_got := [] |}] |}
               O _ key [] eq_refl eq_refl eq_refl
               (Hget Lock_pending ltac:(done)) (Hget holds_Lock ltac:(done))). }
    apply rtc_once.
    exact (step_Get_return
             {| shared_m := m;
                goroutines := [{| g_todo := [op_get key]; g_pc := holds_RLock;
                                  g_got := [] |}] |}
             O _ key [] eq_refl eq_refl eq_refl).
  - eapply rtc_l.
    { exact (step_Lock_announce
               {| shared_m := m;
                  goroutines := [{| g_todo := [op_set key value]; g_pc := outside;
                                    g_got := [] |}] |}
               O _ key value [] eq_refl eq_refl eq_refl
               (Hset Lock_pending ltac:(done)) (Hset holds_Lock ltac:(done))). }
    eapply rtc_l.
    { apply (step_Lock_acquire
               {| shared_m := m;
                  goroutines := [{| g_todo := [op_set key value]; g_pc := Lock_pending;
                                    g_got := [] |}] |}
               O _ eq_refl eq_refl).
      intros [|j] g Hj; simpl in Hj; simplify_eq. simpl. congruence. }
    apply rtc_once.
    exact (step_Set_return
             {| shared_m := m;
                goroutines := [{| g_todo := [op_set key value]; g_pc := holds_Lock;
                                  g_got := [] |}] |}
             O _ key value [] eq_refl eq_refl eq_refl).
Qed.

(** X17: [TestInParallel] on a [SyncMap] that nobody holds and whose map
    holds only test values (the new store's empty map does). However the
    goroutines are scheduled, with readers inside [Get] at the same
    time and a writer inside [Lock()] keeping new readers out: every
    [Get] of [TheTest] returns ["The value " + key] with [true], so no
    goroutine panics; while a goroutine is past the [Lock()] of its
    [Set] no other goroutine is past its [Lock()] or [RLock()]; and as
    long as a goroutine has calls left the system can move. *)
Theorem X17_TestInParallel_SyncMap s rnds sh :
  SyncMap.lock s = unlocked → test_values (SyncMap.m s) →
  rtc SyncMap_step (TestInParallel_shared s rnds) sh →
  (∀ g key r, g ∈ goroutines sh → (key, r) ∈ g_got g →
     r = (string_iface (the_value key), true) ∧
     differs (the_value key) r.1 = false) ∧
  (∀ i gi j gj, goroutines sh !! i = Some gi → g_pc gi = holds_Lock →
     j ≠ i → goroutines sh !! j = Some gj → g_pc gj = outside) ∧
  (∀ i g, goroutines sh !! i = Some g → g_todo g ≠ [] →
     ∃ sh', SyncMap_step sh sh').
Proof.
  intros _ Hval Hrtc.
  assert (TestInParallel_shared_inv sh) as (Hone & _ & Hg).
  { pose proof (TestInParallel_shared_inv_start s rnds Hval) as H0. revert H0.
    induction Hrtc; eauto using TestInParallel_shared_inv_step. }
  split; [|split].
  - intros g key r [j Hj]%list_elem_of_lookup Hgot.
    destruct (Hg j g Hj) as (_ & _ & Hr). rewrite (Hr key r Hgot).
    split; [done|]. apply differs_the_value.
  - intros i gi j gj Hi Hpc Hne Hj.
    by apply (Hone i gi Hi (or_intror Hpc) j gj Hne Hj).
  - intros i g Hi Htodo. apply (shared_progress sh i g); [|done..].
    intros j g' Hj. exact (proj1 (Hg j g' Hj)).
Qed.

Lemma X17_TestInParallel_SyncMap_witness :
  let sh := TestInParallel_shared SyncMap.NewSyncMap [λ j, Z.of_nat j `mod` 500; λ _, 7] in
  (∀ g key r, g ∈ goroutines sh → (key, r) ∈ g_got g →
     r = (string_iface (the_value key), true) ∧
     differs (the_value key) r.1 = false) ∧
  (∀ i gi j gj, goroutines sh !! i = Some gi → g_pc gi = holds_Lock →
     j ≠ i → goroutines sh !! j = Some gj → g_pc gj = outside) ∧
  (∀ i g, goroutines sh !! i = Some g → g_todo g ≠ [] →
     ∃ sh', SyncMap_step sh sh').
Proof.
  intros sh.
  apply (X17_TestInParallel_SyncMap SyncMap.NewSyncMap
           [λ j, Z.of_nat j `mod` 500; λ _, 7] sh eq_refl test_values_empty).
  apply rtc_refl.
Defined.
